(** * Job queue and worker scheduling of the autonomous scraper

    A shallow embedding of [backend/main.py] (the job API over the Mongo
    collection) and of [worker/worker.py] (the robots checker and the
    scraping worker), with the properties of the job lifecycle that the
    design document states about them.

    Conventions.
    - A Mongo collection is the list of its documents in natural order;
      [update_one] rewrites the first document that matches the filter.
    - The store applies every write it is sent; what other processes
      write to the collection is given as a list of writes.
    - [datetime.now] and [time.time] are readings supplied by the caller.
    - A Python exception is carried as the text of [str(e)]. *)

From Stdlib Require Import ZArith.
From Stdlib Require Import Floats.SpecFloat.
From stdpp Require Import base option list sorting gmap sets strings pretty.

Local Open Scope string_scope.
Local Open Scope list_scope.
Local Open Scope Z_scope.

(** ** Values found in job documents *)

Definition Time := Z.
Definition ObjectId := N.

(** [class JobStatus]: the four status constants. *)
Inductive JobStatus := PENDING | IN_PROGRESS | COMPLETED | FAILED.

#[global] Instance JobStatus_eq_dec : EqDecision JobStatus.
Proof. solve_decision. Defined.

Definition status_str (s : JobStatus) : string :=
  match s with
  | PENDING => "pending"
  | IN_PROGRESS => "in_progress"
  | COMPLETED => "completed"
  | FAILED => "failed"
  end.

(** The values of JSON payloads ([options], [result]) as Python holds
    them; a float is a binary64 number. *)
#[warnings="-register-all"]
Inductive pyval :=
| PNone
| PBool (b : bool)
| PInt (z : Z)
| PFloat (f : spec_float)
| PStr (s : string)
| PList (l : list pyval)
| PDict (d : list (string * pyval)).

Definition Dict := list (string * pyval).

(** [type(v).__name__]. *)
Definition type_name (v : pyval) : string :=
  match v with
  | PNone => "NoneType"
  | PBool _ => "bool"
  | PInt _ => "int"
  | PFloat _ => "float"
  | PStr _ => "str"
  | PList _ => "list"
  | PDict _ => "dict"
  end.

(** [1000.0]. *)
Definition float_1000 : spec_float := S754_finite false (1000 * 2 ^ 43) (-43).

(** Python truth value of a dict and of a string. *)
Definition dict_truthy (d : Dict) : bool :=
  match d with [] => false | _ :: _ => true end.

Definition str_truthy (s : string) : bool :=
  match s with EmptyString => false | String _ _ => true end.

(** A job document, with the keys [create_scrape_job] writes. *)
Record Job := mkJob {
  _id : ObjectId;
  url : string;
  status : JobStatus;
  createdAt : Time;
  updatedAt : Time;
  completedAt : option Time;
  result : option Dict;
  error : option string;
  options : Dict
}.

Definition is_terminal (s : JobStatus) : bool :=
  match s with COMPLETED | FAILED => true | _ => false end.

(** ** The collection *)

Module Store.

Definition Collection := list Job.

(** The argument of [$set]: [status] and [updatedAt] are always present,
    the other keys only when the caller put them in [update_doc]. *)
Record UpdateDoc := mkUpdate {
  u_status : JobStatus;
  u_updatedAt : Time;
  u_completedAt : option Time;
  u_result : option Dict;
  u_error : option string
}.

Definition set_key {A} (new : option A) (old : option A) : option A :=
  match new with Some v => Some v | None => old end.

Definition apply_set (u : UpdateDoc) (j : Job) : Job :=
  {| _id := _id j;
     url := url j;
     status := u_status u;
     createdAt := createdAt j;
     updatedAt := u_updatedAt u;
     completedAt := set_key (u_completedAt u) (completedAt j);
     result := set_key (u_result u) (result j);
     error := set_key (u_error u) (error j);
     options := options j |}.

(** [update_one({"_id": job_id}, {"$set": update_doc})]: the filter names
    the id only.  Returns the collection and [matched_count]. *)
Fixpoint update_one (job_id : ObjectId) (u : UpdateDoc) (c : Collection)
  : Collection * nat :=
  match c with
  | [] => ([], 0%nat)
  | j :: rest =>
      if N.eqb (_id j) job_id then (apply_set u j :: rest, 1%nat)
      else let '(rest', n) := update_one job_id u rest in (j :: rest', n)
  end.

(** [find_one({"_id": job_id})]. *)
Fixpoint find_one (job_id : ObjectId) (c : Collection) : option Job :=
  match c with
  | [] => None
  | j :: rest => if N.eqb (_id j) job_id then Some j else find_one job_id rest
  end.

(** [sort("createdAt", 1)]: ascending, by stable insertion. *)
Fixpoint insert_by_created (j : Job) (l : list Job) : list Job :=
  match l with
  | [] => [j]
  | k :: rest =>
      if Z.leb (createdAt j) (createdAt k) then j :: k :: rest
      else k :: insert_by_created j rest
  end.

Definition sort_created_asc (l : list Job) : list Job :=
  foldr insert_by_created [] l.

(** [cursor.limit(n)]: Mongo reads [0] as "no limit" and a negative [n]
    as its absolute value. *)
Definition limit (n : Z) (l : list Job) : list Job :=
  if Z.eqb n 0 then l else take (Z.abs_nat n) l.

(** [cursor.to_list(length=n)], which the worker calls with [n >= 1]. *)
Definition to_list (n : Z) (l : list Job) : list Job := take (Z.to_nat n) l.

(** [find({"status": s})]. *)
Definition find_status (s : JobStatus) (c : Collection) : list Job :=
  filter (λ j, status j = s) c.

(** [sort("createdAt", -1)]: descending, by stable insertion. *)
Fixpoint insert_by_created_desc (j : Job) (l : list Job) : list Job :=
  match l with
  | [] => [j]
  | k :: rest =>
      if Z.leb (createdAt k) (createdAt j) then j :: k :: rest
      else k :: insert_by_created_desc j rest
  end.

Definition sort_created_desc (l : list Job) : list Job :=
  foldr insert_by_created_desc [] l.

(** The orders the two sorts produce. *)
Definition older (a b : Job) : Prop := createdAt a ≤ createdAt b.
Definition newer (a b : Job) : Prop := createdAt b ≤ createdAt a.

(** [cursor.skip(n)], for [n >= 0]. *)
Definition skip (n : Z) (l : list Job) : list Job := drop (Z.to_nat n) l.

(** [delete_one({"_id": job_id})]: removes the first document that
    matches.  Returns the collection and [deleted_count]. *)
Fixpoint delete_one (job_id : ObjectId) (c : Collection) : Collection * nat :=
  match c with
  | [] => ([], 0%nat)
  | j :: rest =>
      if N.eqb (_id j) job_id then (rest, 1%nat)
      else let '(rest', n) := delete_one job_id rest in (j :: rest', n)
  end.

(** [count_documents({"status": s})]. *)
Definition count_status (s : JobStatus) (c : Collection) : nat :=
  length (find_status s c).

(** No two documents share an id. *)
Definition unique_ids (c : Collection) : Prop := NoDup (_id <$> c).

(** [j'] has every field of [completedAt], [result] and [error] set
    that [j] has set. *)
Definition nothing_cleared (j j' : Job) : Prop :=
  (is_Some (completedAt j) → is_Some (completedAt j'))
  ∧ (is_Some (result j) → is_Some (result j'))
  ∧ (is_Some (error j) → is_Some (error j')).

(** What no status update writes: the id, the url, the creation time
    and the options of each document, in order. *)
Definition fixed_part (c : Collection) : list (ObjectId * string * Time * Dict) :=
  (λ j, (_id j, url j, createdAt j, options j)) <$> c.

End Store.

(** ** Exceptions and stateful code

    A coroutine body over a state [S] either returns a value or raises;
    what it did to the state before raising stays done. *)

Inductive exn := Exception (msg : string).

Definition str (e : exn) : string := match e with Exception m => m end.

Inductive outcome (A : Type) :=
| Return (a : A)
| Raise (e : exn).
Arguments Return {A} a.
Arguments Raise {A} e.

Definition M (S A : Type) : Type := S → outcome A * S.

#[global] Instance M_ret {S} : MRet (M S) := λ A a s, (Return a, s).

#[global] Instance M_bind {S} : MBind (M S) := λ A B k m s,
  match m s with
  | (Return a, s') => k a s'
  | (Raise e, s') => (Raise e, s')
  end.

Definition raise {S A} (msg : string) : M S A := λ s, (Raise (Exception msg), s).

Definition lift {S A} (o : outcome A) : M S A := λ s, (o, s).

Definition get {S} : M S S := λ s, (Return s, s).

Definition modify {S} (f : S → S) : M S unit := λ s, (Return tt, f s).

(** [try: body except Exception as e: handler(e)]. *)
Definition try_except {S A} (body : M S A) (handler : exn → M S A) : M S A :=
  λ s, match body s with
       | (Return a, s') => (Return a, s')
       | (Raise e, s') => handler e s'
       end.

(** [try: body finally: cleanup]; [cleanup] runs on both exits and the
    exception of [body], if any, is raised again after it. *)
Definition try_finally {S A} (body : M S A) (cleanup : M S unit) : M S A :=
  λ s, match body s with
       | (o, s') =>
           match cleanup s' with
           | (Return _, s'') => (o, s'')
           | (Raise e, s'') => (Raise e, s'')
           end
       end.

(** ** RobotsChecker *)

Module Robots.

(** What the checker reaches outside itself.  [rules] is the state of a
    [RobotFileParser] after [read()]. *)
Record Env := mkEnv {
  rules : Type;
  (* urlparse(url): scheme and netloc, or ValueError *)
  urlparse : string → outcome (string * string);
  (* client.get(robots_url): the status code, or a transport error *)
  http_get : string → outcome Z;
  (* rp.set_url(robots_url); rp.read() *)
  rp_read : string → outcome rules;
  (* rp.can_fetch(user_agent, url) *)
  rp_can_fetch : rules → string → string → outcome bool
}.

(** [self.cache]: key to (decision, timestamp). *)
Abbreviation Cache := (gmap string (bool * Time)).

Definition cache_ttl : Time := 3600.

Definition robots_url_of (parsed : string * string) : string :=
  fst parsed +:+ "://" +:+ snd parsed +:+ "/robots.txt".

Definition cache_key_of (robots_url user_agent : string) : string :=
  robots_url +:+ ":" +:+ user_agent.

(** The [# Check cache first] block: the cached decision, when the key
    has one younger than the TTL at [t_check]. *)
Definition cached_decision (cache : Cache) (cache_key : string)
    (t_check : Time) : option bool :=
  match cache !! cache_key with
  | Some (cached_data, timestamp) =>
      if Z.ltb (t_check - timestamp) cache_ttl then Some cached_data
      else None
  | None => None
  end.

(** [RobotsChecker.can_fetch]; [t_check] and [t_store] are the two
    readings of [time.time()]. *)
Definition can_fetch (env : Env) (url user_agent : string)
    (t_check t_store : Time) : M Cache bool :=
  try_except
    (parsed_url ← lift (urlparse env url);
     let robots_url := robots_url_of parsed_url in
     let cache_key := cache_key_of robots_url user_agent in
     cache ← get;
     match cached_decision cache cache_key t_check with
     | Some cached_data => mret cached_data
     | None =>
         try_except
           (status_code ← lift (http_get env robots_url);
            if Z.eqb status_code 200 then
              rp ← lift (rp_read env robots_url);
              can_fetch ← lift (rp_can_fetch env rp user_agent url);
              modify (λ c : Cache, <[cache_key := (can_fetch, t_store)]> c);;
              mret can_fetch
            else mret true)
           (λ e, mret true)
     end)
    (λ e, mret true).

End Robots.

(** ** ScrapingWorker *)

Module Worker.

Import Store.

(** [WorkerConfig]: the settings the scheduling code reads. *)
Record Config := mkConfig {
  POLL_INTERVAL : Z;
  MAX_CONCURRENT_JOBS : Z;
  DEFAULT_TIMEOUT : Z;
  MAX_PAGE_SIZE : Z;
  USER_AGENT : string;
  MIN_REQUEST_DELAY : Z
}.

(** What the worker does to the outside, in order. *)
Inductive Event :=
| EvFind (limit_arg : Z)
| EvUpdate (job_id : ObjectId) (u : UpdateDoc) (matched_count : nat)
| EvSleep (seconds : Z)
| EvGoto (page_url : string) (timeout_ms : pyval)
| EvPageClose
| EvClose (handle : string).

(** The fields of a [ScrapingWorker], the collection it talks to, the
    counters that index the readings of the outside world, and the
    trace of what the worker did.  A [has_] field says that the handle
    is not [None].  [last_activity] and [start_time], which only the
    statistics read, are left out. *)
Record World := mkWorld {
  jobs_collection : Collection;
  robots_cache : Robots.Cache;
  is_running : bool;
  current_jobs : gset ObjectId;
  jobs_processed : nat;
  jobs_succeeded : nat;
  jobs_failed : nat;
  has_context : bool;
  has_browser : bool;
  has_client : bool;
  clock_reads : nat;
  visits : nat;
  log : list Event
}.

Definition set_jobs_collection (f : Collection → Collection) (w : World) : World :=
  mkWorld (f (jobs_collection w)) (robots_cache w) (is_running w)
    (current_jobs w) (jobs_processed w) (jobs_succeeded w) (jobs_failed w)
    (has_context w) (has_browser w) (has_client w) (clock_reads w)
    (visits w) (log w).

Definition set_robots_cache (c : Robots.Cache) (w : World) : World :=
  mkWorld (jobs_collection w) c (is_running w)
    (current_jobs w) (jobs_processed w) (jobs_succeeded w) (jobs_failed w)
    (has_context w) (has_browser w) (has_client w) (clock_reads w)
    (visits w) (log w).

Definition set_is_running (b : bool) (w : World) : World :=
  mkWorld (jobs_collection w) (robots_cache w) b
    (current_jobs w) (jobs_processed w) (jobs_succeeded w) (jobs_failed w)
    (has_context w) (has_browser w) (has_client w) (clock_reads w)
    (visits w) (log w).

Definition set_current_jobs (f : gset ObjectId → gset ObjectId) (w : World)
  : World :=
  mkWorld (jobs_collection w) (robots_cache w) (is_running w)
    (f (current_jobs w)) (jobs_processed w) (jobs_succeeded w) (jobs_failed w)
    (has_context w) (has_browser w) (has_client w) (clock_reads w)
    (visits w) (log w).

Definition set_counters (p s f : nat → nat) (w : World) : World :=
  mkWorld (jobs_collection w) (robots_cache w) (is_running w)
    (current_jobs w) (p (jobs_processed w)) (s (jobs_succeeded w))
    (f (jobs_failed w))
    (has_context w) (has_browser w) (has_client w) (clock_reads w)
    (visits w) (log w).

Definition set_clock_reads (n : nat) (w : World) : World :=
  mkWorld (jobs_collection w) (robots_cache w) (is_running w)
    (current_jobs w) (jobs_processed w) (jobs_succeeded w) (jobs_failed w)
    (has_context w) (has_browser w) (has_client w) n (visits w) (log w).

Definition set_visits (n : nat) (w : World) : World :=
  mkWorld (jobs_collection w) (robots_cache w) (is_running w)
    (current_jobs w) (jobs_processed w) (jobs_succeeded w) (jobs_failed w)
    (has_context w) (has_browser w) (has_client w) (clock_reads w) n
    (log w).

Definition emit (e : Event) (w : World) : World :=
  mkWorld (jobs_collection w) (robots_cache w) (is_running w)
    (current_jobs w) (jobs_processed w) (jobs_succeeded w) (jobs_failed w)
    (has_context w) (has_browser w) (has_client w) (clock_reads w)
    (visits w) (log w ++ [e]).

(** One load of a page in the browser, as [_scrape_page] sees it. *)
Record Response := mkResponse {
  r_status : Z;
  r_status_text : string;
  r_content_type : string
}.

(** [goto] is what [page.set_default_timeout(timeout)] and then
    [page.goto(url, wait_until, timeout)] come to, with the timeout of
    this load. *)
Record Visit := mkVisit {
  new_page : outcome unit;
  goto : outcome (option Response);
  wait_for_load_state : outcome unit;
  content : outcome string;
  extract_content : Dict;
  capture_screenshot : option string;
  scraped_at : string
}.

(** The outside world of one worker process. *)
Record Env := mkEnv {
  config : Config;
  (* the k-th reading of the clock *)
  clock : nat → Time;
  robots : Robots.Env;
  (* the k-th call of _scrape_page, on a url *)
  visit : nat → string → Visit
}.

Definition now (env : Env) : M World Time :=
  λ w, (Return (clock env (clock_reads w)), set_clock_reads (S (clock_reads w)) w).

(** [await asyncio.sleep(d)]. *)
Definition sleep (d : Z) : M World unit := modify (emit (EvSleep d)).

(** [await self.jobs_collection.update_one(...)]. *)
Definition db_update_one (job_id : ObjectId) (u : UpdateDoc) : M World nat :=
  λ w, let '(c, matched) := update_one job_id u (jobs_collection w) in
       (Return matched,
        emit (EvUpdate job_id u matched) (set_jobs_collection (λ _, c) w)).

Definition truthy_dict (r : option Dict) : option Dict :=
  match r with
  | Some d => if dict_truthy d then Some d else None
  | None => None
  end.

Definition truthy_str (e : option string) : option string :=
  match e with
  | Some s => if str_truthy s then Some s else None
  | None => None
  end.

(** [ScrapingWorker._update_job_status]. *)
Definition _update_job_status (env : Env) (job_id : ObjectId)
    (status : JobStatus) (result : option Dict) (error : option string)
  : M World unit :=
  try_except
    (updated ← now env;
     completed ← (if is_terminal status
                  then (t ← now env; mret (Some t))
                  else mret None);
     let update_doc :=
       {| u_status := status;
          u_updatedAt := updated;
          u_completedAt := completed;
          u_result := truthy_dict result;
          u_error := truthy_str error |} in
     db_update_one job_id update_doc;;
     mret tt)
    (λ e, mret tt).

(** [d.get(k)]. *)
Fixpoint dict_get (k : string) (d : Dict) : option pyval :=
  match d with
  | [] => None
  | (k', v) :: rest => if String.eqb k' k then Some v else dict_get k rest
  end.

(** [d.get(k, v)]. *)
Definition dict_get_default (k : string) (v : pyval) (d : Dict) : pyval :=
  default v (dict_get k d).

(** [v * 1000]: a number is multiplied, a string or a list repeated,
    and [None] and a dict raise TypeError. *)
Definition times_1000 (v : pyval) : outcome pyval :=
  match v with
  | PBool b => Return (PInt (if b then 1000 else 0))
  | PInt z => Return (PInt (z * 1000))
  | PFloat f => Return (PFloat (SFmul 53 1024 f float_1000))
  | PStr s => Return (PStr (String.concat "" (replicate 1000 s)))
  | PList l => Return (PList (mjoin (replicate 1000 l)))
  | PNone | PDict _ =>
      Raise (Exception ("unsupported operand type(s) for *: '"
                        +:+ type_name v +:+ "' and 'int'"))
  end.

(** [options.get('timeout', config.DEFAULT_TIMEOUT) * 1000]. *)
Definition timeout_ms (env : Env) (options : Dict) : outcome pyval :=
  times_1000
    (dict_get_default "timeout" (PInt (DEFAULT_TIMEOUT (config env))) options).

(** [extracted_content.get('statistics', {}).get('dom_elements', 0)]:
    only a dict has a [get]. *)
Definition dom_elements (extracted : Dict) : outcome pyval :=
  match dict_get_default "statistics" (PDict []) extracted with
  | PDict st => Return (dict_get_default "dom_elements" (PInt 0) st)
  | v => Raise (Exception ("'" +:+ type_name v
                           +:+ "' object has no attribute 'get'"))
  end.

Definition opt_str (o : option string) : pyval :=
  match o with Some s => PStr s | None => PNone end.

(** [ScrapingWorker._scrape_page].  [page] is bound once [new_page]
    has returned, so the [finally] clause closes it from there on. *)
Definition _scrape_page (env : Env) (job_id : ObjectId) (url : string)
    (options : Dict) : M World Dict :=
  w ← get;
  let v := visit env (visits w) url in
  modify (set_visits (S (visits w)));;
  try_except
    (lift (new_page v);;
     try_finally
       (timeout ← lift (timeout_ms env options);
        modify (emit (EvGoto url timeout));;
        response ← lift (goto v);
        match response with
        | None => raise "Failed to load page - no response"
        | Some response =>
            if Z.geb (r_status response) 400 then
              raise ("HTTP " +:+ pretty (r_status response) +:+ ": "
                     +:+ r_status_text response)
            else
              lift (wait_for_load_state v);;
              html_content ← lift (content v);
              let content_length := Z.of_nat (String.length html_content) in
              if Z.gtb content_length (MAX_PAGE_SIZE (config env)) then
                raise ("Page size (" +:+ pretty content_length
                       +:+ " bytes) exceeds maximum allowed size")
              else
                let extracted_content := extract_content v in
                let screenshot_path := capture_screenshot v in
                dom ← lift (dom_elements extracted_content);
                mret [("url", PStr url);
                      ("status_code", PInt (r_status response));
                      ("content_type", PStr (r_content_type response));
                      ("content_length", PInt content_length);
                      ("scraped_at", PStr (scraped_at v));
                      ("screenshot_path", opt_str screenshot_path);
                      ("content", PDict extracted_content);
                      ("performance",
                       PDict [("load_time", PNone); ("dom_elements", dom)])]
        end)
       (modify (emit EvPageClose)))
    (λ e, lift (Raise e)).

(** A method of [self.robots_checker], run on the worker's cache. *)
Definition on_robots_cache {A} (m : M Robots.Cache A) : M World A :=
  λ w, let '(o, c) := m (robots_cache w) in (o, set_robots_cache c w).

(** [self.robots_checker.can_fetch(url, config.USER_AGENT)], with the
    two readings of the clock it may use. *)
Definition robots_can_fetch (env : Env) (url : string) : M World bool :=
  t_check ← now env;
  t_store ← now env;
  on_robots_cache
    (Robots.can_fetch (robots env) url (USER_AGENT (config env))
       t_check t_store).

(** The decorated function: the body of [_process_single_job]. *)
Definition process_single_job_body (env : Env) (job : Job) : M World unit :=
  let job_id := _id job in
  let url := url job in
  try_finally
    (try_except
       (_update_job_status env job_id IN_PROGRESS None None;;
        allowed ← robots_can_fetch env url;
        if negb allowed then raise "Robots.txt disallows fetching this URL"
        else
          sleep (MIN_REQUEST_DELAY (config env));;
          result ← _scrape_page env job_id url (options job);
          _update_job_status env job_id COMPLETED (Some result) None;;
          modify (set_counters id S id))
       (λ e,
          _update_job_status env job_id FAILED None (Some (str e));;
          modify (set_counters id id S)))
    (modify (set_current_jobs (λ s, s ∖ {[job_id]}));;
     modify (set_counters S id id)).

(** tenacity's [wait_exponential(multiplier, min, max)]. *)
Definition wait_exponential (multiplier min max : Z) (attempt_number : nat)
  : Z :=
  Z.max (Z.max 0 min)
        (Z.min (multiplier * 2 ^ Z.of_nat (attempt_number - 1)) max).

(** tenacity's [@retry(stop=stop_after_attempt(n), wait=wait)]: call
    again after an exception, sleeping in between, until the call
    returns or [n] attempts were made. *)
Fixpoint retrying {A} (attempts_left attempt_number : nat) (wait : nat → Z)
    (f : M World A) : M World A :=
  λ w, match f w with
       | (Return a, w') => (Return a, w')
       | (Raise e, w') =>
           match attempts_left with
           | O => (Raise (Exception ("RetryError[" +:+ str e +:+ "]")), w')
           | S n =>
               retrying n (S attempt_number) wait f
                 (emit (EvSleep (wait attempt_number)) w')
           end
       end.

Definition retry {A} (stop_after_attempt : nat) (wait : nat → Z)
    (f : M World A) : M World A :=
  retrying (stop_after_attempt - 1) 1 wait f.

(** [ScrapingWorker._process_single_job], decorator included. *)
Definition _process_single_job (env : Env) (job : Job) : M World unit :=
  retry 3 (wait_exponential 1 4 10) (process_single_job_body env job).

(** *** Closed forms

    What [_update_job_status] sends and leaves behind, and the [try]
    block of [_process_single_job] up to its result. *)

Definition status_doc (env : Env) (status : JobStatus) (result : option Dict)
    (error : option string) (w : World) : UpdateDoc :=
  {| u_status := status;
     u_updatedAt := clock env (clock_reads w);
     u_completedAt := if is_terminal status
                      then Some (clock env (S (clock_reads w))) else None;
     u_result := truthy_dict result;
     u_error := truthy_str error |}.

Definition after_status (env : Env) (job_id : ObjectId) (status : JobStatus)
    (result : option Dict) (error : option string) (w : World) : World :=
  let u := status_doc env status result error w in
  let reads := if is_terminal status then S (S (clock_reads w))
               else S (clock_reads w) in
  emit (EvUpdate job_id u (update_one job_id u (jobs_collection w)).2)
    (set_jobs_collection (λ _, (update_one job_id u (jobs_collection w)).1)
       (set_clock_reads reads w)).

Definition attempt (env : Env) (job : Job) : M World Dict :=
  _update_job_status env (_id job) IN_PROGRESS None None;;
  allowed ← robots_can_fetch env (url job);
  if negb allowed then raise "Robots.txt disallows fetching this URL"
  else
    sleep (MIN_REQUEST_DELAY (config env));;
    _scrape_page env (_id job) (url job) (options job).

(** The status updates among the events. *)
Definition updates_of (events : list Event) : list (ObjectId * JobStatus) :=
  omap (λ e, match e with
             | EvUpdate job_id u _ => Some (job_id, u_status u)
             | _ => None
             end) events.

(** The sleeps among the events. *)
Definition sleeps_of (events : list Event) : list Z :=
  omap (λ e, match e with EvSleep d => Some d | _ => None end) events.

(** What the [finally] clause of [_process_single_job] leaves. *)
Definition finalized (job_id : ObjectId) (w : World) : World :=
  set_counters S id id (set_current_jobs (λ s, s ∖ {[job_id]}) w).

(** [w'] differs from [w] by nothing a status update or the scheduler
    reads: the collection, the set of current jobs and the counters are
    the same and no status update was sent in between. *)
Definition quiet (w w' : World) : Prop :=
  jobs_collection w' = jobs_collection w
  ∧ current_jobs w' = current_jobs w
  ∧ is_running w' = is_running w
  ∧ jobs_processed w' = jobs_processed w
  ∧ jobs_succeeded w' = jobs_succeeded w
  ∧ jobs_failed w' = jobs_failed w
  ∧ (visits w ≤ visits w')%nat
  ∧ ∃ events, log w' = log w ++ events ∧ updates_of events = [].

(** *** The poll tick *)

(** [find({"status": "pending"}).sort("createdAt", 1).limit(n)] followed
    by [to_list(length=n)]. *)
Definition db_find_pending (n : Z) : M World (list Job) :=
  λ w, (Return (to_list n (limit n (sort_created_asc
                  (find_status PENDING (jobs_collection w))))),
        emit (EvFind n) w).

(** The [for job in jobs] loop of [_process_jobs]: the jobs a task is
    created for. *)
Fixpoint create_tasks (jobs : list Job) : M World (list Job) :=
  match jobs with
  | [] => mret []
  | job :: rest =>
      w ← get;
      if decide (_id job ∈ current_jobs w) then create_tasks rest
      else
        modify (set_current_jobs (λ s, s ∪ {[_id job]}));;
        tasks ← create_tasks rest;
        mret (job :: tasks)
  end.

(** [_process_jobs] up to its [await asyncio.gather] of the tasks. *)
Definition process_jobs_dispatch (env : Env) : M World (list Job) :=
  w ← get;
  let in_flight := Z.of_nat (size (current_jobs w)) in
  if Z.geb in_flight (MAX_CONCURRENT_JOBS (config env)) then mret []
  else
    let jobs_to_process := MAX_CONCURRENT_JOBS (config env) - in_flight in
    jobs ← db_find_pending jobs_to_process;
    match jobs with
    | [] => mret []
    | _ :: _ => create_tasks jobs
    end.

(** *** Tasks on the event loop

    A task created from [_process_single_job] runs from one [await] to
    the next whenever the loop picks it. *)
Inductive TaskPc :=
| AtStart
| AtRobots
| AtDelay
| AtScrape
| AtCompleted (result : Dict)
| AtFailed (e : exn)
| Finished.

Definition is_finished (pc : TaskPc) : bool :=
  match pc with Finished => true | _ => false end.

(** A stretch of the [try] block: an exception enters the handler. *)
Definition in_try (m : M World TaskPc) (w : World) : TaskPc * World :=
  match m w with
  | (Return pc, w') => (pc, w')
  | (Raise e, w') => (AtFailed e, w')
  end.

(** The [finally] clause. *)
Definition finally_clause (job_id : ObjectId) : M World unit :=
  modify (set_current_jobs (λ s, s ∖ {[job_id]}));;
  modify (set_counters S id id).

(** The last stretch, which runs through the [finally] clause. *)
Definition to_end (job_id : ObjectId) (m : M World unit) (w : World)
  : TaskPc * World :=
  match m w with
  | (_, w') => (Finished, snd (finally_clause job_id w'))
  end.

Definition task_step (env : Env) (job : Job) (pc : TaskPc) (w : World)
  : TaskPc * World :=
  match pc with
  | AtStart =>
      in_try (_update_job_status env (_id job) IN_PROGRESS None None;;
              mret AtRobots) w
  | AtRobots =>
      in_try (allowed ← robots_can_fetch env (url job);
              if negb allowed
              then raise "Robots.txt disallows fetching this URL"
              else mret AtDelay) w
  | AtDelay =>
      in_try (sleep (MIN_REQUEST_DELAY (config env));; mret AtScrape) w
  | AtScrape =>
      in_try (result ← _scrape_page env (_id job) (url job) (options job);
              mret (AtCompleted result)) w
  | AtCompleted result =>
      match (_update_job_status env (_id job) COMPLETED (Some result) None;;
             modify (set_counters id S id)) w with
      | (Return _, w') => (Finished, snd (finally_clause (_id job) w'))
      | (Raise e, w') => (AtFailed e, w')
      end
  | AtFailed e =>
      to_end (_id job)
        (_update_job_status env (_id job) FAILED None (Some (str e));;
         modify (set_counters id id S)) w
  | Finished => (Finished, w)
  end.

Fixpoint run_task (env : Env) (job : Job) (steps : nat) (pc : TaskPc)
    (w : World) : TaskPc * World :=
  match steps with
  | O => (pc, w)
  | S n => let '(pc', w') := task_step env job pc w in run_task env job n pc' w'
  end.

(** *** The main loop of [start], with the tasks it created *)

Inductive MainPc :=
| Polling                (* about to call _process_jobs *)
| Gathering (first : nat) (* at the gather of the tasks from [first] on *)
| Sleeping.              (* at asyncio.sleep(POLL_INTERVAL) *)

Record Loop := mkLoop {
  main : MainPc;
  pool : list (Job * TaskPc);
  world : World
}.

Definition all_finished (tasks : list (Job * TaskPc)) : bool :=
  forallb (λ t, is_finished t.2) tasks.

(** The tasks the main loop is not waiting for at a gather are all
    finished. *)
Definition settled (l : Loop) : bool :=
  match main l with
  | Gathering first => all_finished (take first (pool l))
  | Polling | Sleeping => all_finished (pool l)
  end.

(** What the event loop runs next. *)
Inductive Choice := RunMain | RunTask (i : nat).

Definition main_step (env : Env) (l : Loop) : option Loop :=
  match main l with
  | Polling =>
      if is_running (world l) then
        match process_jobs_dispatch env (world l) with
        | (Return [], w') => Some (mkLoop Sleeping (pool l) w')
        | (Return tasks, w') =>
            Some (mkLoop (Gathering (length (pool l)))
                    (pool l ++ map (λ job, (job, AtStart)) tasks) w')
        | (Raise _, w') => Some (mkLoop Sleeping (pool l) w')
        end
      else None
  | Gathering first =>
      if forallb (λ t, is_finished (snd t)) (drop first (pool l))
      then Some (mkLoop Sleeping (pool l) (world l))
      else None
  | Sleeping =>
      Some (mkLoop Polling (pool l)
              (emit (EvSleep (POLL_INTERVAL (config env))) (world l)))
  end.

Definition task_turn (env : Env) (i : nat) (l : Loop) : option Loop :=
  match pool l !! i with
  | Some (job, pc) =>
      if is_finished pc then None
      else
        let '(pc', w') := task_step env job pc (world l) in
        Some (mkLoop (main l) (<[i := (job, pc')]> (pool l)) w')
  | None => None
  end.

Definition loop_step (env : Env) (c : Choice) (l : Loop) : option Loop :=
  match c with
  | RunMain => main_step env l
  | RunTask i => task_turn env i l
  end.

Fixpoint run (env : Env) (schedule : list Choice) (l : Loop) : option Loop :=
  match schedule with
  | [] => Some l
  | c :: rest =>
      match loop_step env c l with
      | Some l' => run env rest l'
      | None => None
      end
  end.

(** [start], entered with no task created yet. *)
Definition start (w : World) : Loop :=
  mkLoop Polling [] (set_is_running true w).

Definition reachable (env : Env) (w : World) (l : Loop) : Prop :=
  ∃ schedule, run env schedule (start w) = Some l.

(** [len(self.current_jobs)] against the configured limit. *)
Definition in_flight (w : World) : Z := Z.of_nat (size (current_jobs w)).

Definition within_limit (env : Env) (w : World) : Prop :=
  in_flight w ≤ MAX_CONCURRENT_JOBS (config env).

(** The answer of the robots check that [_process_single_job] makes
    on world [w], right after its in_progress update. *)
Definition robots_answer (env : Env) (job : Job) (w : World) : outcome bool :=
  (Robots.can_fetch (robots env) (url job) (USER_AGENT (config env))
     (clock env (S (clock_reads w))) (clock env (S (S (clock_reads w))))
     (robots_cache w)).1.

(** The page navigations among the events. *)
Definition gotos_of (events : list Event) : list string :=
  omap (λ e, match e with EvGoto u _ => Some u | _ => None end) events.

(** The tasks of the pool that ran through their [finally] clause. *)
Definition finished_tasks (tasks : list (Job * TaskPc)) : nat :=
  length (filter (λ t, is_finished t.2 = true) tasks).

(** The job ids of the tasks that are still running, in pool order. *)
Definition running_ids (tasks : list (Job * TaskPc)) : list ObjectId :=
  (λ t, _id t.1) <$> filter (λ t, is_finished t.2 = false) tasks.

(** *** Shutdown *)

(** The [while self.current_jobs: await asyncio.sleep(1)] loop.
    [finishing k] are the jobs whose tasks reach their [finally] clause
    during the [k]-th sleep; [fuel] bounds the rounds looked at. *)
Fixpoint shutdown_wait (fuel : nat) (finishing : nat → gset ObjectId)
    (k : nat) (w : World) : option World :=
  if decide (current_jobs w = ∅) then Some w
  else
    match fuel with
    | O => None
    | S fuel' =>
        shutdown_wait fuel' finishing (S k)
          (set_current_jobs (λ s, s ∖ finishing k) (emit (EvSleep 1) w))
    end.

(** The jobs still in flight after [n] rounds of the wait, from round
    [k] on. *)
Fixpoint remaining (finishing : nat → gset ObjectId) (k n : nat)
    (s : gset ObjectId) : gset ObjectId :=
  match n with
  | O => s
  | S n' => remaining finishing (S k) n' (s ∖ finishing k)
  end.

(** [if self.h: await self.h.close()]. *)
Definition close_handle (name : string) (present : bool) (w : World) : World :=
  if present then emit (EvClose name) w else w.

(** [ScrapingWorker.shutdown], up to the final statistics. *)
Definition shutdown (fuel : nat) (finishing : nat → gset ObjectId)
    (w : World) : option World :=
  w1 ← shutdown_wait fuel finishing 0 (set_is_running false w);
  let w2 := close_handle "context" (has_context w1) w1 in
  let w3 := close_handle "browser" (has_browser w2) w2 in
  Some (close_handle "client" (has_client w3) w3).

End Worker.

(** ** The job API of the backend *)

Module Api.

Import Store.

(** What an endpoint answers: a body, or an [HTTPException]. *)
Inductive http (A : Type) :=
| Ok (a : A)
| HTTPException (status_code : Z) (detail : string).
Arguments Ok {A} a.
Arguments HTTPException {A} status_code detail.

(** The value of a hex digit, in either case. *)
Definition hex_value (a : Ascii.ascii) : option N :=
  let n := Ascii.N_of_ascii a in
  if (48 <=? n)%N && (n <=? 57)%N then Some (n - 48)%N
  else if (97 <=? n)%N && (n <=? 102)%N then Some (n - 87)%N
  else if (65 <=? n)%N && (n <=? 70)%N then Some (n - 55)%N
  else None.

(** The number that a string of hex digits writes, read on from
    [acc]. *)
Fixpoint parse_hex (s : string) (acc : N) : option N :=
  match s with
  | EmptyString => Some acc
  | String a rest =>
      match hex_value a with
      | Some d => parse_hex rest (16 * acc + d)%N
      | None => None
      end
  end.

(** The ASCII whitespace that [bytes.fromhex] skips. *)
Definition is_space (a : Ascii.ascii) : bool :=
  let n := Ascii.N_of_ascii a in
  (n =? 32)%N || ((9 <=? n)%N && (n <=? 13)%N).

(** [bytes.fromhex(s)]: one byte for every two hex digits, whitespace
    between the bytes skipped; [None] where it raises ValueError. *)
Fixpoint fromhex (s : string) : option (list N) :=
  match s with
  | EmptyString => Some []
  | String a rest =>
      if is_space a then fromhex rest
      else
        match hex_value a, rest with
        | Some top, String b rest' =>
            match hex_value b with
            | Some bot => cons (16 * top + bot)%N <$> fromhex rest'
            | None => None
            end
        | _, _ => None
        end
  end.

(** [ObjectId(oid)] for a string: the bytes that its 24 characters
    write, or [None] for InvalidId.  [ObjectId.is_valid(oid)] is
    whether there are such bytes. *)
Definition object_id (oid : string) : option (list N) :=
  if Nat.eqb (String.length oid) 24 then fromhex oid else None.

(** The [_id] of the collection that an ObjectId is: documents are
    written with ids of twelve bytes, so an ObjectId of fewer bytes is
    the [_id] of none. *)
Definition stored_id (oid : list N) : option ObjectId :=
  if Nat.eqb (length oid) 12
  then Some (foldl (λ acc b, 256 * acc + b)%N 0%N oid)
  else None.

(** The [_id] that the filter [{"_id": ObjectId(job_id)}] names. *)
Definition stored_object_id (job_id : string) : option ObjectId :=
  object_id job_id ≫= stored_id.

(** [find_one({"_id": oid})] for an ObjectId. *)
Definition find_by_id (oid : list N) (c : Collection) : option Job :=
  stored_id oid ≫= λ job_id, find_one job_id c.

(** [get_job_by_id]; [serialize_job] only changes how the id and the
    dates are written out. *)
Definition get_job_by_id (job_id : string) (c : Collection) : http Job :=
  match object_id job_id with
  | None => HTTPException 400 "Invalid job ID format"
  | Some oid =>
      match find_by_id oid c with
      | None => HTTPException 404 "Job not found"
      | Some job => Ok job
      end
  end.

(** [insert_one], with the id the driver generated for the document. *)
Definition insert_one (job : Job) (c : Collection) : outcome Collection :=
  match find_one (_id job) c with
  | Some _ => Raise (Exception "DuplicateKeyError")
  | None => Return (c ++ [job])%list
  end.

(** [create_scrape_job], for a request that passed validation. *)
Definition create_scrape_job (request_url : string)
    (request_options : option Dict) (now : Time) (inserted_id : ObjectId)
    (c : Collection) : http Job * Collection :=
  let job_doc :=
    {| _id := inserted_id;
       url := request_url;
       status := PENDING;
       createdAt := now;
       updatedAt := now;
       completedAt := None;
       result := None;
       error := None;
       options := default [] request_options |} in
  match insert_one job_doc c with
  | Raise _ => (HTTPException 500 "Failed to create scraping job", c)
  | Return c' =>
      match find_one inserted_id c' with
      | Some created_job => (Ok created_job, c')
      | None => (HTTPException 500 "Failed to create scraping job", c')
      end
  end.

(** [JobUpdateRequest], as sent. *)
Record JobUpdateRequest := mkUpdateRequest {
  req_status : string;
  req_result : option Dict;
  req_error : option string
}.

(** [JobUpdateRequest.validate_status]. *)
Definition validate_status (v : string) : option JobStatus :=
  if String.eqb v (status_str PENDING) then Some PENDING
  else if String.eqb v (status_str IN_PROGRESS) then Some IN_PROGRESS
  else if String.eqb v (status_str COMPLETED) then Some COMPLETED
  else if String.eqb v (status_str FAILED) then Some FAILED
  else None.

(** The [update_doc] that [update_job] prepares. *)
Definition update_doc_of (new_status : JobStatus)
    (update_request : JobUpdateRequest) (now : Time) : UpdateDoc :=
  {| u_status := new_status;
     u_updatedAt := now;
     u_completedAt := if is_terminal new_status then Some now else None;
     u_result := req_result update_request;
     u_error := req_error update_request |}.

(** [validation_exception_handler] on the error of a validator.  The
    body it builds holds [exc.errors()] and in them the ValueError that
    the validator raised, which [JSONResponse] cannot serialise: the
    handler fails and the server answers 500. *)
Definition validation_exception_handler {A} : http A :=
  HTTPException 500 "Internal Server Error".

(** [update_job] behind the request validation of the framework. *)
Definition update_job (job_id : string) (update_request : JobUpdateRequest)
    (now : Time) (c : Collection) : http Job * Collection :=
  match validate_status (req_status update_request) with
  | None => (validation_exception_handler, c)
  | Some new_status =>
      match get_job_by_id job_id c, stored_object_id job_id with
      | Ok _, Some oid =>
          let update_doc := update_doc_of new_status update_request now in
          let '(c', _) := update_one oid update_doc c in
          (get_job_by_id job_id c', c')
      | HTTPException code detail, _ => (HTTPException code detail, c)
      | Ok _, None => (HTTPException 500 "Failed to update job", c)
      end
  end.

(** [str(ObjectId)]: the 24 lower-case hex digits of the 12 bytes. *)
Definition hex_char (d : N) : Ascii.ascii :=
  Ascii.ascii_of_N (if (d <? 10)%N then 48 + d else 87 + d)%N.

Fixpoint hex_digits (k : nat) (n : N) (acc : string) : string :=
  match k with
  | O => acc
  | S k' => hex_digits k' (n / 16)%N (String (hex_char (n mod 16)%N) acc)
  end.

Definition oid_str (oid : ObjectId) : string := hex_digits 24 oid "".

(** The query [get_jobs] builds: a status filter only when the
    parameter is given and not empty. *)
Definition find_query (status_filter : option string) (c : Collection)
  : list Job :=
  match status_filter with
  | Some s =>
      if str_truthy s then filter (λ j, status_str (status j) = s) c else c
  | None => c
  end.

(** [get_jobs]; the framework rejects a [limit] outside 1..1000 and a
    negative [skip] before the function runs. *)
Definition get_jobs (status_filter : option string) (limit skip : Z)
    (c : Collection) : http (list Job) :=
  if (limit <? 1) || (1000 <? limit) || (skip <? 0)
  then HTTPException 422 "Invalid request data"
  else
    Ok (to_list limit
          (Store.limit limit
             (Store.skip skip
                (sort_created_desc (find_query status_filter c))))).

(** [delete_job]; the body answered is the id that was asked for. *)
Definition delete_job (job_id : string) (c : Collection)
  : http string * Collection :=
  match get_job_by_id job_id c, stored_object_id job_id with
  | Ok _, Some oid =>
      let '(c', deleted_count) := delete_one oid c in
      if Nat.eqb deleted_count 0
      then (HTTPException 404 "Job not found", c')
      else (Ok job_id, c')
  | HTTPException code detail, _ => (HTTPException code detail, c)
  | Ok _, None => (HTTPException 500 "Failed to delete job", c)
  end.




End Api.

(** ** Other writers of the collection *)

Module Writers.

Import Store Worker.

(** What another process does to the collection while a worker runs a
    job: the API inserts, updates and deletes documents, another worker
    updates them. *)
Inductive Write :=
| Insert (job : Job)
| Update (job_id : ObjectId) (u : UpdateDoc)
| Delete (job_id : ObjectId).

(** The id of the document a write is about. *)
Definition written (wr : Write) : ObjectId :=
  match wr with
  | Insert job => _id job
  | Update job_id _ => job_id
  | Delete job_id => job_id
  end.

Definition apply_write (wr : Write) (c : Collection) : Collection :=
  match wr with
  | Insert job =>
      match Api.insert_one job c with Return c' => c' | Raise _ => c end
  | Update job_id u => (update_one job_id u c).1
  | Delete job_id => (delete_one job_id c).1
  end.

Definition apply_writes (ws : list Write) (c : Collection) : Collection :=
  foldl (λ c wr, apply_write wr c) c ws.

(** None of the writes is about the job [job_id]. *)
Definition elsewhere (job_id : ObjectId) (others : list (list Write)) : bool :=
  forallb (forallb (λ wr, negb (N.eqb (written wr) job_id))) others.

(** A task of [_process_single_job] on a collection it shares.  Before
    each stretch of the task, from one [await] to the next, the other
    processes make the writes of one element of [others]; the elements
    left when the task has finished are writes made after it. *)
Fixpoint run_task_among (env : Env) (job : Job) (others : list (list Write))
    (pc : TaskPc) (w : World) : TaskPc * World :=
  match others with
  | [] => (pc, w)
  | ws :: rest =>
      let '(pc', w') :=
        task_step env job pc (set_jobs_collection (apply_writes ws) w) in
      run_task_among env job rest pc' w'
  end.

End Writers.

(** ** ContentExtractor *)

Module Extractor.

(** What the extractor reaches outside itself: the parse of the page,
    with scripts, styles and comments removed, the extractors by name,
    the analysis and the statistics. *)
Record Env := mkEnv {
  soup : Type;
  parse : string → outcome soup;
  extractor : string → soup → string → outcome pyval;
  analyze_content : soup → outcome pyval;
  calculate_statistics : soup → string → outcome pyval
}.

(** The keys of [self.extractors], in order. *)
Definition extractors : list string :=
  ["title"; "meta_description"; "headings"; "links"; "images";
   "text_content"; "forms"; "tables"; "social_media"; "contact_info"].

(** The [# Run all extractors] loop: an extractor that raises leaves
    [None] under its name. *)
Definition run_extractors (env : Env) (s : soup env) (base_url : string)
    (names : list string) : Dict :=
  (λ name, (name, match extractor env name s base_url with
                  | Return v => v
                  | Raise _ => PNone
                  end)) <$> names.

(** [ContentExtractor.extract_content]. *)
Definition extract_content (env : Env) (html base_url : string) : Dict :=
  match
    match parse env html with
    | Raise e => Raise e
    | Return s =>
        let results := run_extractors env s base_url extractors in
        match analyze_content env s with
        | Raise e => Raise e
        | Return analysis =>
            match calculate_statistics env s html with
            | Raise e => Raise e
            | Return statistics =>
                Return (results ++ [("analysis", analysis);
                                    ("statistics", statistics)])
            end
        end
    end
  with
  | Return results => results
  | Raise e => [("error", PStr (str e))]
  end.

End Extractor.

(** ** The lifecycle as the design document words it *)

Module Design.

Import Store Worker.



(** "Exactly one of result/error is non-null once status is terminal;
    both null while pending/in_progress." *)
Definition result_error_ok (j : Job) : bool :=
  if is_terminal (status j)
  then xorb (bool_decide (is_Some (result j))) (bool_decide (is_Some (error j)))
  else bool_decide (result j = None) && bool_decide (error j = None).

(** Two worker processes on one collection: [wB] goes on from the
    collection [wA] left. *)
Definition hand_over (wA wB : World) : World :=
  set_jobs_collection (λ _, jobs_collection wA) wB.

(** The update that moves a job to in_progress. *)
Definition claim (env : Env) (job_id : ObjectId) (w : World) : World :=
  (_update_job_status env job_id IN_PROGRESS None None w).2.

(** [matched_count] of the last update the worker sent. *)
Definition last_matched (w : World) : nat :=
  match last (log w) with
  | Some (EvUpdate _ _ n) => n
  | _ => 0%nat
  end.

(** "At most one process wins the claim; the other observes a no-op",
    when [wB] claims the job right after [wA] did. *)
Definition exclusive_claim (envA envB : Env) (job_id : ObjectId)
    (wA wB : World) : Prop :=
  let wA' := claim envA job_id wA in
  let wB' := claim envB job_id (hand_over wA' wB) in
  (last_matched wA' + last_matched wB' ≤ 1)%nat
  ∧ jobs_collection wB' = jobs_collection wA'.

(** "This invariant is preserved by every status update", for one
    request to the update endpoint. *)
Definition keeps_pairing (job_id : string)
    (update_request : Api.JobUpdateRequest) (now : Time) (c : Collection)
  : Prop :=
  ∀ oid j j' c',
    Api.stored_object_id job_id = Some oid →
    find_one oid c = Some j →
    result_error_ok j = true →
    Api.update_job job_id update_request now c = (Api.Ok j', c') →
    result_error_ok j' = true.

(** The same for the run of a worker on a job it found pending. *)
Definition run_keeps_pairing (env : Env) (job : Job) (w : World) : Prop :=
  ∀ j j',
    find_one (_id job) (jobs_collection w) = Some j →
    result_error_ok j = true →
    find_one (_id job) (jobs_collection (_process_single_job env job w).2)
    = Some j' →
    result_error_ok j' = true.

(** "The loop does not wait for them before the next tick": the main
    loop is past its gather while a task it created is unfinished. *)
Definition loop_runs_ahead (env : Env) (w : World) : Prop :=
  ∃ l, reachable env w l
       ∧ (main l = Sleeping ∨ main l = Polling)
       ∧ all_finished (pool l) = false.

(** "Waits until in_flight is empty, or a shutdown timeout elapses":
    some number of rounds ends the wait. *)
Definition shutdown_is_bounded (finishing : nat → gset ObjectId) (w : World)
  : Prop :=
  ∃ fuel, is_Some (shutdown fuel finishing w).

(** "A job whose processing raises ends in failed with the error
    message embedded, and is absent from in_flight afterward." *)
Definition fails_with_message (env : Env) (job : Job) (w : World) : Prop :=
  ∀ e w1,
    attempt env job w = (Raise e, w1) →
    let w' := (_process_single_job env job w).2 in
    (∃ j msg, find_one (_id job) (jobs_collection w') = Some j
              ∧ status j = FAILED ∧ error j = Some msg ∧ msg ≠ "")
    ∧ _id job ∉ current_jobs w'.

End Design.

(** ** Concrete runs *)

Module Scenario.

Import Store Worker.

(** A site whose robots.txt disallows [/private] for every agent. *)
Definition public_url : string := "https://example.com/public".
Definition private_url : string := "https://example.com/private".

Definition site : Robots.Env :=
  {| Robots.rules := unit;
     Robots.urlparse := λ _, Return ("https", "example.com");
     Robots.http_get := λ _, Return 200;
     Robots.rp_read := λ _, Return tt;
     Robots.rp_can_fetch :=
       λ _ _ u, Return (negb (String.eqb u private_url)) |}.

Definition settings : Config :=
  {| POLL_INTERVAL := 5;
     MAX_CONCURRENT_JOBS := 3;
     DEFAULT_TIMEOUT := 30;
     MAX_PAGE_SIZE := 10 * 1024 * 1024;
     USER_AGENT := "Autonomous-Scraper-Bot/1.0";
     MIN_REQUEST_DELAY := 1 |}.

Definition loaded : Visit :=
  {| new_page := Return tt;
     goto := Return (Some (mkResponse 200 "OK" "text/html"));
     wait_for_load_state := Return tt;
     content := Return "<html><body>ok</body></html>";
     extract_content := [("title", PStr "ok")];
     capture_screenshot := None;
     scraped_at := "2024-01-01T12:00:00+00:00" |}.

(** The navigation raises with the given message. *)
Definition broken (message : string) : Visit :=
  {| new_page := Return tt;
     goto := Raise (Exception message);
     wait_for_load_state := Return tt;
     content := Return "";
     extract_content := [];
     capture_screenshot := None;
     scraped_at := "" |}.

(** Every page loads. *)
Definition steady : Env :=
  {| config := settings;
     clock := λ k, 100 + Z.of_nat k;
     robots := site;
     visit := λ _ _, loaded |}.

(** The first navigation times out, every later one loads. *)
Definition flaky : Env :=
  {| config := settings;
     clock := λ k, 100 + Z.of_nat k;
     robots := site;
     visit := λ k _, match k with
                     | O => broken "Timeout 30000ms exceeded."
                     | S _ => loaded
                     end |}.

(** Every navigation raises an exception that carries no message. *)
Definition mute : Env :=
  {| config := settings;
     clock := λ k, 100 + Z.of_nat k;
     robots := site;
     visit := λ _ _, broken "" |}.

(** Every navigation is answered 404. *)
Definition missing : Visit :=
  {| new_page := Return tt;
     goto := Return (Some (mkResponse 404 "Not Found" "text/html"));
     wait_for_load_state := Return tt;
     content := Return "";
     extract_content := [];
     capture_screenshot := None;
     scraped_at := "" |}.

Definition gone : Env :=
  {| config := settings;
     clock := λ k, 100 + Z.of_nat k;
     robots := site;
     visit := λ _ _, missing |}.

(** A second worker process, whose clock reads later. *)
Definition steady_late : Env :=
  {| config := settings;
     clock := λ k, 200 + Z.of_nat k;
     robots := site;
     visit := λ _ _, loaded |}.

Definition pending_job (job_id : ObjectId) (created : Time) : Job :=
  {| _id := job_id;
     url := public_url;
     status := PENDING;
     createdAt := created;
     updatedAt := created;
     completedAt := None;
     result := None;
     error := None;
     options := [] |}.


(** A worker right after [initialize], on a given collection. *)
Definition fresh_worker (c : Collection) : World :=
  {| jobs_collection := c;
     robots_cache := ∅;
     is_running := false;
     current_jobs := ∅;
     jobs_processed := 0%nat;
     jobs_succeeded := 0%nat;
     jobs_failed := 0%nat;
     has_context := true;
     has_browser := true;
     has_client := true;
     clock_reads := 0%nat;
     visits := 0%nat;
     log := [] |}.

Definition first_id : ObjectId := 1%N.
Definition first_job : Job := pending_job first_id 10.

(** The first job's id as the API spells it. *)
Definition first_id_str : string := "000000000000000000000001".

(** A request to put a job back to pending. *)
Definition back_to_pending : Api.JobUpdateRequest :=
  {| Api.req_status := "pending";
     Api.req_result := None;
     Api.req_error := None |}.

(** A request to complete a job that sends no result. *)
Definition complete_without_result : Api.JobUpdateRequest :=
  {| Api.req_status := "completed";
     Api.req_result := None;
     Api.req_error := None |}.

(** A worker with the first job in flight. *)
Definition busy_worker : World :=
  set_current_jobs (λ _, {[first_id]}) (fresh_worker [first_job]).

(** No task ever reaches its [finally] clause. *)
Definition nothing_finishes : nat → gset ObjectId := λ _, ∅.

(** The first poll, then the first two tasks taking turns. *)
Definition interleaved : list Choice :=
  [RunMain; RunTask 0; RunTask 1; RunTask 0].

(** The first poll, then the first task run to its end. *)
Definition first_task_done : list Choice :=
  [RunMain; RunTask 0; RunTask 0; RunTask 0; RunTask 0; RunTask 0].

(** What the API does to other jobs while a worker runs the first
    one. *)
Definition meanwhile : list (list Writers.Write) :=
  [[Writers.Insert (pending_job 2%N 11)];
   [];
   [Writers.Update 2%N
      {| u_status := FAILED; u_updatedAt := 12; u_completedAt := Some 12;
         u_result := None; u_error := Some "stopped" |}];
   [Writers.Insert (pending_job 3%N 13); Writers.Delete 2%N];
   [];
   []].

(** The update by which a second worker completes the first job. *)
Definition completed_elsewhere : Writers.Write :=
  Writers.Update first_id
    {| u_status := COMPLETED; u_updatedAt := 150; u_completedAt := Some 150;
       u_result := Some [("url", PStr public_url)]; u_error := None |}.

(** A job for the url the site disallows. *)
Definition private_job : Job :=
  {| _id := 2%N;
     url := private_url;
     status := PENDING;
     createdAt := 11;
     updatedAt := 11;
     completedAt := None;
     result := None;
     error := None;
     options := [] |}.

Definition four_pending : Collection :=
  [first_job; pending_job 2%N 11; pending_job 3%N 12;
   pending_job 4%N 13].

End Scenario.

(** * Properties *)

Local Set Warnings "-clear-no-such-hyp".

(** Unfolds the monad of stateful code. *)
Ltac open_m :=
  unfold try_except, try_finally, mbind, M_bind, mret, M_ret, lift, get,
    modify, raise, Worker.sleep; simpl.

(** ** The collection *)

Section StoreFacts.
Import Store.


Lemma update_one_found job_id u c j :
  find_one job_id c = Some j →
  ∃ c', update_one job_id u c = (c', 1%nat) ∧
        find_one job_id c' = Some (apply_set u j).
Proof.
  induction c as [|k c IH]; simpl; [done|].
  destruct (N.eqb_spec (_id k) job_id) as [Heq|Hne].
  - intros [= ->]. eexists; split; [done|]. simpl.
    by rewrite Heq, N.eqb_refl.
  - intros Hj. destruct (IH Hj) as (c' & -> & Hc').
    eexists; split; [done|]. simpl.
    by destruct (N.eqb_spec (_id k) job_id).
Qed.

Lemma update_one_missing job_id u c :
  find_one job_id c = None → update_one job_id u c = (c, 0%nat).
Proof.
  induction c as [|k c IH]; simpl; [done|].
  destruct (N.eqb_spec (_id k) job_id); [done|].
  intros H. by rewrite (IH H).
Qed.

Lemma update_one_other job_id other u c :
  other ≠ job_id →
  find_one other (update_one job_id u c).1 = find_one other c.
Proof.
  intros Hne. induction c as [|k c IH]; simpl; [done|].
  destruct (N.eqb_spec (_id k) job_id) as [Heq|Hne'].
  - simpl. destruct (N.eqb_spec (_id k) other); [congruence | done].
  - destruct (update_one job_id u c) as [c' n]. simpl in *.
    by rewrite IH.
Qed.

End StoreFacts.

(** ** Status updates of the worker *)

Section StatusUpdate.
Import Store Worker.

(** [_update_job_status] never raises and always sends its update. *)
Lemma update_job_status_eq env job_id st r e w :
  _update_job_status env job_id st r e w
  = (Return tt, after_status env job_id st r e w).
Proof.
  unfold _update_job_status, after_status, status_doc, try_except,
    db_update_one, now.
  destruct st; simpl; unfold mbind, M_bind, mret, M_ret; simpl;
    destruct (update_one _ _ _) as [c' n]; reflexivity.
Qed.

Lemma after_status_found env job_id st r e w j :
  find_one job_id (jobs_collection w) = Some j →
  find_one job_id (jobs_collection (after_status env job_id st r e w))
  = Some (apply_set (status_doc env st r e w) j)
  ∧ Design.last_matched (after_status env job_id st r e w) = 1%nat.
Proof.
  intros Hj. unfold after_status, Design.last_matched. simpl.
  destruct (update_one_found job_id (status_doc env st r e w) _ j Hj)
    as (c' & -> & Hc').
  by rewrite last_snoc.
Qed.

(** C1, as the code has it: the update that moves a job to in_progress
    names the job by its id alone.  It is applied to a job of any
    status, so of two workers claiming one job in turn both updates
    match; the second writes in_progress and its own [updatedAt] over
    the record the first left and keeps every other field. *)
Theorem claim_is_unconditional envA envB job_id wA wB j :
  find_one job_id (jobs_collection wA) = Some j →
  let wA' := Design.claim envA job_id wA in
  let wB' := Design.claim envB job_id (Design.hand_over wA' wB) in
  Design.last_matched wA' = 1%nat
  ∧ Design.last_matched wB' = 1%nat
  ∧ find_one job_id (jobs_collection wA')
    = Some {| _id := _id j; url := url j; status := IN_PROGRESS;
              createdAt := createdAt j;
              updatedAt := clock envA (clock_reads wA);
              completedAt := completedAt j; result := result j;
              error := error j; options := options j |}
  ∧ find_one job_id (jobs_collection wB')
    = Some {| _id := _id j; url := url j; status := IN_PROGRESS;
              createdAt := createdAt j;
              updatedAt := clock envB (clock_reads wB);
              completedAt := completedAt j; result := result j;
              error := error j; options := options j |}.
Proof.
  intros Hj wA' wB'. subst wA' wB'. unfold Design.claim.
  rewrite !update_job_status_eq. simpl.
  destruct (after_status_found envA job_id IN_PROGRESS None None wA j Hj)
    as [HA HmA].
  set (wA' := after_status envA job_id IN_PROGRESS None None wA) in *.
  assert (find_one job_id (jobs_collection (Design.hand_over wA' wB))
          = Some (apply_set (status_doc envA IN_PROGRESS None None wA) j))
    as HB0 by exact HA.
  destruct (after_status_found envB job_id IN_PROGRESS None None
              (Design.hand_over wA' wB) _ HB0) as [HB HmB].
  repeat split; [exact HmA | exact HmB | exact HA | exact HB].
Qed.

Lemma claim_is_unconditional_witness :
  let j := Scenario.first_job in
  let wA := Scenario.fresh_worker [j] in
  let wB := Scenario.fresh_worker [j] in
  let wA' := Design.claim Scenario.steady (_id j) wA in
  let wB' :=
    Design.claim Scenario.steady_late (_id j) (Design.hand_over wA' wB) in
  Design.last_matched wA' = 1%nat
  ∧ Design.last_matched wB' = 1%nat
  ∧ find_one (_id j) (jobs_collection wA')
    = Some {| _id := _id j; url := url j; status := IN_PROGRESS;
              createdAt := 10; updatedAt := 100; completedAt := None;
              result := None; error := None; options := [] |}
  ∧ find_one (_id j) (jobs_collection wB')
    = Some {| _id := _id j; url := url j; status := IN_PROGRESS;
              createdAt := 10; updatedAt := 200; completedAt := None;
              result := None; error := None; options := [] |}.
Proof.
  exact (claim_is_unconditional Scenario.steady Scenario.steady_late
           Scenario.first_id
           (Scenario.fresh_worker [Scenario.first_job])
           (Scenario.fresh_worker [Scenario.first_job])
           Scenario.first_job eq_refl).
Defined.

(** C1 as stated fails: two workers claim the first job in turn, the
    second update matches as well and changes the record. *)
Lemma claim_race_both_win :
  ¬ Design.exclusive_claim Scenario.steady Scenario.steady_late
      Scenario.first_id
      (Scenario.fresh_worker [Scenario.first_job])
      (Scenario.fresh_worker [Scenario.first_job]).
Proof.
  unfold Design.exclusive_claim. intros [Hwins _].
  vm_compute in Hwins. lia.
Qed.

End StatusUpdate.

(** ** The robots checker *)

Section RobotsFacts.
Import Robots.

Lemma can_fetch_returns env url user_agent t_check t_store cache :
  ∃ b cache',
    can_fetch env url user_agent t_check t_store cache = (Return b, cache').
Proof.
  unfold can_fetch, try_except, mbind, M_bind, mret, M_ret, lift, get, modify.
  destruct (urlparse env url) as [parsed|e]; simpl; [|by eauto].
  destruct (cached_decision _ _ _) as [cached|]; simpl; [by eauto|].
  destruct (http_get env _) as [code|e]; simpl; [|by eauto].
  destruct (code =? 200)%Z; simpl; [|by eauto].
  destruct (rp_read env _) as [rp|e]; simpl; [|by eauto].
  destruct (rp_can_fetch env rp _ _) as [allowed|e]; simpl; by eauto.
Qed.

(** C10: [RobotsChecker.can_fetch] returns a boolean on every input and
    never raises; when [urlparse], the fetch of robots.txt, its parse or
    the parser's check raises, or the fetch answers another status than
    200, the boolean is [True]; otherwise it is the cached decision or
    the parser's. *)
Theorem can_fetch_total env url user_agent t_check t_store cache :
  ∃ b cache',
    can_fetch env url user_agent t_check t_store cache = (Return b, cache')
    ∧ match urlparse env url with
      | Raise _ => b = true
      | Return parsed =>
          let robots_url := robots_url_of parsed in
          match cached_decision cache (cache_key_of robots_url user_agent)
                  t_check with
          | Some cached_data => b = cached_data
          | None =>
              match http_get env robots_url with
              | Raise _ => b = true
              | Return status_code =>
                  if (status_code =? 200)%Z then
                    match rp_read env robots_url with
                    | Raise _ => b = true
                    | Return rp =>
                        match rp_can_fetch env rp user_agent url with
                        | Raise _ => b = true
                        | Return allowed => b = allowed
                        end
                    end
                  else b = true
              end
          end
      end.
Proof.
  unfold can_fetch, try_except, mbind, M_bind, mret, M_ret, lift, get, modify.
  destruct (urlparse env url) as [parsed|e]; simpl; [|by eauto].
  destruct (cached_decision _ _ _) as [cached|]; simpl; [by eauto|].
  destruct (http_get env _) as [code|e]; simpl; [|by eauto].
  destruct (code =? 200)%Z; simpl; [|by eauto].
  destruct (rp_read env _) as [rp|e]; simpl; [|by eauto].
  destruct (rp_can_fetch env rp _ _) as [allowed|e]; simpl; by eauto.
Qed.

(** On a miss, a decision of the parser is returned and stored under
    the key of the robots file and the agent, with the time of
    storing. *)
Lemma can_fetch_miss env url user_agent t_check t_store cache parsed rp b :
  urlparse env url = Return parsed →
  cached_decision cache (cache_key_of (robots_url_of parsed) user_agent)
    t_check = None →
  http_get env (robots_url_of parsed) = Return 200 →
  rp_read env (robots_url_of parsed) = Return rp →
  rp_can_fetch env rp user_agent url = Return b →
  can_fetch env url user_agent t_check t_store cache
  = (Return b,
     <[cache_key_of (robots_url_of parsed) user_agent := (b, t_store)]> cache).
Proof.
  intros Hp Hc Hg Hr Hb.
  unfold can_fetch, try_except, mbind, M_bind, mret, M_ret, lift, get, modify.
  rewrite Hp; simpl. rewrite Hc, Hg; simpl. by rewrite Hr, Hb.
Qed.

(** Within the TTL, a call answers with the decision stored under the
    key of the robots file and the agent, whatever url it is asked
    about. *)
Lemma can_fetch_hit env url user_agent t_check t_store cache parsed b ts :
  urlparse env url = Return parsed →
  cache !! cache_key_of (robots_url_of parsed) user_agent = Some (b, ts) →
  t_check - ts < cache_ttl →
  can_fetch env url user_agent t_check t_store cache = (Return b, cache).
Proof.
  intros Hp Hc Ht.
  unfold can_fetch, try_except, mbind, M_bind, mret, M_ret, lift, get.
  rewrite Hp; simpl. unfold cached_decision. rewrite Hc.
  destruct (Z.ltb_spec (t_check - ts) cache_ttl); [done | lia].
Qed.

(** C8, on the code: after [public_url] was allowed at time 0, the call
    for [private_url] one second later answers [True] from the cache,
    although the parser disallows that url. *)
Theorem can_fetch_reuses_first_decision :
  let '(first, cache1) := can_fetch Scenario.site Scenario.public_url "*" 0 0 ∅ in
  let '(second, _) := can_fetch Scenario.site Scenario.private_url "*" 1 1 cache1 in
  first = Return true
  ∧ second = Return true
  ∧ rp_can_fetch Scenario.site tt "*" Scenario.private_url = Return false.
Proof. vm_compute. done. Qed.

End RobotsFacts.

(** ** One job *)

Section JobProcessing.
Import Store Worker.

Lemma quiet_refl w : quiet w w.
Proof.
  repeat split; try done. exists []. by rewrite app_nil_r.
Qed.

Lemma quiet_trans w1 w2 w3 : quiet w1 w2 → quiet w2 w3 → quiet w1 w3.
Proof.
  intros (?&?&?&?&?&?&?&ev1&?&Hu1) (?&?&?&?&?&?&?&ev2&?&Hu2).
  repeat split; try congruence; try lia.
  exists (ev1 ++ ev2). split.
  - rewrite app_assoc. congruence.
  - unfold updates_of in *. by rewrite omap_app, Hu1, Hu2.
Qed.

Lemma quiet_emit e w :
  updates_of [e] = [] → quiet w (emit e w).
Proof. intros He. repeat split; try done. by exists [e]. Qed.

Lemma robots_can_fetch_quiet env url w :
  ∃ b w', robots_can_fetch env url w = (Return b, w') ∧ quiet w w'
          ∧ visits w' = visits w.
Proof.
  unfold robots_can_fetch, on_robots_cache, now, mbind, M_bind; simpl.
  destruct (can_fetch_returns (robots env) url (USER_AGENT (config env))
              (clock env (clock_reads w)) (clock env (S (clock_reads w)))
              (robots_cache w)) as (b & c & ->).
  exists b. eexists; split; [done|]. split; [|done].
  repeat split; try done. exists []. by rewrite app_nil_r.
Qed.

Lemma quiet_events w w' events :
  jobs_collection w' = jobs_collection w →
  current_jobs w' = current_jobs w →
  is_running w' = is_running w →
  jobs_processed w' = jobs_processed w →
  jobs_succeeded w' = jobs_succeeded w →
  jobs_failed w' = jobs_failed w →
  (visits w ≤ visits w')%nat →
  log w' = log w ++ events →
  updates_of events = [] →
  quiet w w'.
Proof. intros. repeat split; try done. by exists events. Qed.

(** Closes a goal about a world that differs from [w] by the given
    events and a larger count of visits. *)
Ltac quiet_with events :=
  do 2 eexists; split; [reflexivity|]; split; [|done];
  eapply (quiet_events _ _ events); simpl; try done; try lia;
  by rewrite <- ?app_assoc, ?app_nil_r.

Lemma scrape_page_quiet env job_id url opts w :
  ∃ o w', _scrape_page env job_id url opts w = (o, w')
          ∧ quiet w w'
          ∧ visits w' = S (visits w)
          ∧ match o with Return r => dict_truthy r = true | Raise _ => True end.
Proof.
  unfold _scrape_page. open_m.
  set (v := visit env (visits w) url).
  destruct (new_page v) as [[]|e]; simpl; [|quiet_with (@nil Event)].
  destruct (timeout_ms env opts) as [timeout|e]; simpl;
    [|quiet_with [EvPageClose]].
  destruct (goto v) as [[response|]|e]; simpl;
    [|quiet_with [EvGoto url timeout; EvPageClose]..].
  destruct (r_status response >=? 400); simpl;
    [quiet_with [EvGoto url timeout; EvPageClose]|].
  destruct (wait_for_load_state v) as [[]|e]; simpl;
    [|quiet_with [EvGoto url timeout; EvPageClose]].
  destruct (content v) as [html|e]; simpl;
    [|quiet_with [EvGoto url timeout; EvPageClose]].
  destruct (_ >? _); simpl; [quiet_with [EvGoto url timeout; EvPageClose]|].
  destruct (dom_elements (extract_content v)) as [dom|e]; simpl;
    quiet_with [EvGoto url timeout; EvPageClose].
Qed.

Lemma attempt_quiet env job w :
  ∃ o w1, attempt env job w = (o, w1)
          ∧ quiet (after_status env (_id job) IN_PROGRESS None None w) w1
          ∧ (visits w1 ≤ S (visits w))%nat
          ∧ match o with
            | Return r => dict_truthy r = true
            | Raise _ => True
            end.
Proof.
  unfold attempt. open_m. rewrite update_job_status_eq.
  set (w0 := after_status _ _ _ _ _ w).
  assert (visits w0 = visits w) as Hv by done.
  destruct (robots_can_fetch_quiet env (url job) w0) as (b & w2 & -> & Hq2 & Hv2).
  destruct b; simpl.
  - destruct (scrape_page_quiet env (_id job) (url job) (options job)
                (emit (EvSleep (MIN_REQUEST_DELAY (config env))) w2))
      as (o & w3 & -> & Hq3 & Hv3 & Ho).
    exists o, w3. split; [done|]. split; [|split; [simpl in Hv3; lia | done]].
    eapply quiet_trans; [exact Hq2|].
    eapply quiet_trans; [|exact Hq3]. by apply quiet_emit.
  - do 2 eexists. split; [done|]. split; [done|]. split; [lia | done].
Qed.

(** The body of [_process_single_job] always returns: its [try] block
    ends in the completed update, or its handler in the failed one, and
    the [finally] clause runs after either. *)
Lemma body_eq env job w :
  process_single_job_body env job w =
  match attempt env job w with
  | (Return r, w1) =>
      (Return tt,
       finalized (_id job)
         (set_counters id S id
            (after_status env (_id job) COMPLETED (Some r) None w1)))
  | (Raise e, w1) =>
      (Return tt,
       finalized (_id job)
         (set_counters id id S
            (after_status env (_id job) FAILED None (Some (str e)) w1)))
  end.
Proof.
  unfold process_single_job_body, attempt. open_m.
  rewrite update_job_status_eq.
  destruct (robots_can_fetch env (url job) _) as [[[]|e] w2]; simpl.
  - destruct (_scrape_page env _ _ _ _) as [[r|e] w3]; simpl;
      by rewrite update_job_status_eq.
  - by rewrite update_job_status_eq.
  - by rewrite update_job_status_eq.
Qed.

(** The decorator never sees an exception, so it calls the body once. *)
Lemma retry_transparent env job w :
  _process_single_job env job w = process_single_job_body env job w.
Proof.
  unfold _process_single_job, retry; simpl.
  rewrite body_eq. by destruct (attempt env job w) as [[r|e] w1].
Qed.

(** A job found in the collection is carried through both of its
    status updates. *)
Lemma processed_job env job w j0 :
  find_one (_id job) (jobs_collection w) = Some j0 →
  ∃ o w1,
    attempt env job w = (o, w1)
    ∧ (visits w1 ≤ S (visits w))%nat
    ∧ match o with Return r => dict_truthy r = true | Raise _ => True end
    ∧ let started := apply_set (status_doc env IN_PROGRESS None None w) j0 in
      let ended :=
        match o with
        | Return r => status_doc env COMPLETED (Some r) None w1
        | Raise e => status_doc env FAILED None (Some (str e)) w1
        end in
      let w' := (_process_single_job env job w).2 in
      find_one (_id job) (jobs_collection w1) = Some started
      ∧ (_process_single_job env job w).1 = Return tt
      ∧ find_one (_id job) (jobs_collection w') = Some (apply_set ended started)
      ∧ current_jobs w' = current_jobs w ∖ {[_id job]}
      ∧ updates_of (log w')
        = updates_of (log w) ++ [(_id job, IN_PROGRESS); (_id job, u_status ended)].
Proof.
  intros Hj.
  destruct (attempt_quiet env job w) as (o & w1 & Ha & Hq & Hv & Ho).
  exists o, w1. split; [done|]. split; [done|]. split; [done|].
  destruct Hq as (Hc & Hcj & _ & _ & _ & _ & _ & events & Hlog & Hev).
  destruct (after_status_found env (_id job) IN_PROGRESS None None w j0 Hj)
    as [Hstarted _].
  rewrite <- Hc in Hstarted.
  assert (updates_of (log w1)
          = updates_of (log w) ++ [(_id job, IN_PROGRESS)]) as Hup.
  { rewrite Hlog. unfold updates_of in *. rewrite omap_app, Hev, app_nil_r.
    unfold after_status. simpl. by rewrite omap_app. }
  simpl. split; [done|].
  rewrite retry_transparent, body_eq, Ha.
  destruct o as [r|e]; simpl.
  - destruct (after_status_found env (_id job) COMPLETED (Some r) None w1 _
                Hstarted) as [Hend _].
    split; [done|]. split; [exact Hend|]. split; [by rewrite Hcj|].
    unfold updates_of in *. rewrite omap_app, Hup. simpl.
    by rewrite <- app_assoc.
  - destruct (after_status_found env (_id job) FAILED None (Some (str e)) w1 _
                Hstarted) as [Hend _].
    split; [done|]. split; [exact Hend|]. split; [by rewrite Hcj|].
    unfold updates_of in *. rewrite omap_app, Hup. simpl.
    by rewrite <- app_assoc.
Qed.

(** C7 as stated fails: when the exception carries no message the job
    ends failed without an [error]. *)
Lemma failed_job_without_message :
  ¬ Design.fails_with_message Scenario.mute Scenario.first_job
      (Scenario.fresh_worker [Scenario.first_job]).
Proof.
  intros H.
  destruct (H (Exception "")
              (attempt Scenario.mute Scenario.first_job
                 (Scenario.fresh_worker [Scenario.first_job])).2)
    as [(j & msg & Hfind & _ & Herr & _) _].
  { by vm_compute. }
  vm_compute in Hfind. injection Hfind as <-. discriminate Herr.
Qed.

(** C4, on the code: the first navigation times out and a second one
    would load the page, yet the job is failed after that one attempt:
    the page is visited once, the only sleep is the rate-limit delay,
    and the updates sent are in_progress, then failed. *)
Theorem timeout_is_not_retried :
  let w' := (_process_single_job Scenario.flaky Scenario.first_job
               (Scenario.fresh_worker [Scenario.first_job])).2 in
  visits w' = 1%nat
  ∧ goto (visit Scenario.flaky 1 Scenario.public_url)
    = Return (Some (mkResponse 200 "OK" "text/html"))
  ∧ sleeps_of (log w') = [1]
  ∧ updates_of (log w')
    = [(Scenario.first_id, IN_PROGRESS); (Scenario.first_id, FAILED)]
  ∧ (status <$> find_one Scenario.first_id (jobs_collection w')) = Some FAILED.
Proof. by vm_compute. Qed.

End JobProcessing.

(** ** The update endpoint *)

Section ApiFacts.
Import Store Api.

Lemma validate_status_str st : validate_status (status_str st) = Some st.
Proof. by destruct st. Qed.




Lemma find_one_snoc job_id c j :
  find_one job_id c = None →
  find_one job_id (c ++ [j])
  = if N.eqb (_id j) job_id then Some j else None.
Proof.
  induction c as [|k c IH]; simpl; [done|].
  destruct (N.eqb (_id k) job_id); [done | exact IH].
Qed.

(** A created job is pending and has neither result nor error. *)
Lemma created_job_is_blank request_url request_options now inserted_id c
    created c' :
  create_scrape_job request_url request_options now inserted_id c
  = (Ok created, c') →
  find_one inserted_id c' = Some created
  ∧ _id created = inserted_id
  ∧ status created = PENDING
  ∧ result created = None
  ∧ error created = None.
Proof.
  unfold create_scrape_job, insert_one. simpl.
  destruct (find_one inserted_id c) eqn:Hfree; [done|].
  rewrite (find_one_snoc _ _ _ Hfree). simpl. rewrite N.eqb_refl.
  by intros [= <- <-]; rewrite (find_one_snoc _ _ _ Hfree); simpl;
    rewrite N.eqb_refl.
Qed.

End ApiFacts.

(** ** Result and error over the life of a job *)

Section Pairing.
Import Store Worker.

(** C3 as stated fails: the endpoint completes a pending job without a
    result, and a worker fails a job on an exception without message;
    either leaves a terminal job with [result] and [error] both null. *)
Lemma terminal_job_with_neither :
  ¬ Design.keeps_pairing Scenario.first_id_str
      Scenario.complete_without_result 50 [Scenario.first_job]
  ∧ ¬ Design.run_keeps_pairing Scenario.mute Scenario.first_job
        (Scenario.fresh_worker [Scenario.first_job]).
Proof.
  split.
  - intros H.
    pose proof (H Scenario.first_id Scenario.first_job _ _
                  eq_refl eq_refl eq_refl eq_refl) as Hbad.
    by vm_compute in Hbad.
  - intros H.
    set (found := find_one (_id Scenario.first_job)
                    (jobs_collection
                       (_process_single_job Scenario.mute Scenario.first_job
                          (Scenario.fresh_worker [Scenario.first_job])).2)).
    destruct found as [j'|] eqn:Hfound; [|by vm_compute in Hfound].
    pose proof (H Scenario.first_job j' eq_refl eq_refl Hfound) as Hbad.
    vm_compute in Hfound. injection Hfound as <-. by vm_compute in Hbad.
Qed.

End Pairing.

(** ** The poll tick *)

Section PollTick.
Import Store Worker.

Lemma find_pending_length n w :
  0 < n →
  ∃ jobs, db_find_pending n w = (Return jobs, emit (EvFind n) w)
          ∧ Z.of_nat (length jobs) ≤ n.
Proof.
  intros Hn. unfold db_find_pending, to_list. eexists. split; [done|].
  rewrite length_take. lia.
Qed.

(** The [for] loop adds the ids it creates tasks for and nothing else. *)
Lemma create_tasks_spec jobs w :
  ∃ tasks,
    create_tasks jobs w
    = (Return tasks,
       set_current_jobs (λ s, s ∪ list_to_set (_id <$> tasks)) w)
    ∧ (length tasks ≤ length jobs)%nat
    ∧ (size (current_jobs w ∪ list_to_set (_id <$> tasks))
       ≤ size (current_jobs w) + length tasks)%nat.
Proof.
  revert w. induction jobs as [|job rest IH]; intros w; simpl.
  - exists []. open_m. split; [|split; [done|]].
    + f_equal. destruct w; unfold set_current_jobs; simpl. f_equal.
      set_solver.
    + simpl. rewrite union_empty_r_L. lia.
  - open_m. destruct (decide (_id job ∈ current_jobs w)) as [Hin|Hout].
    + destruct (IH w) as (tasks & -> & Hlen & Hsize).
      exists tasks. split; [done|]. split; [lia | done].
    + destruct (IH (set_current_jobs (λ s, s ∪ {[_id job]}) w))
        as (tasks & -> & Hlen & Hsize).
      exists (job :: tasks). simpl in *. split; [|split; [lia|]].
      * f_equal. destruct w; unfold set_current_jobs; simpl. f_equal.
        set_solver.
      * rewrite (assoc_L (∪)). etrans; [exact Hsize|].
        rewrite size_union by set_solver. rewrite size_singleton. lia.
Qed.

(** One call of [_process_jobs], up to its gather: it returns; at or
    over the limit it neither queries the collection nor changes
    anything; under the limit it sends one query, limited to the free
    capacity, creates at most that many tasks and stays within the
    limit. *)
Lemma dispatch_spec env w :
  let limit := MAX_CONCURRENT_JOBS (config env) in
  ∃ tasks w',
    process_jobs_dispatch env w = (Return tasks, w')
    ∧ Z.of_nat (length tasks) ≤ Z.max 0 (limit - in_flight w)
    ∧ is_running w' = is_running w
    ∧ if decide (limit ≤ in_flight w) then tasks = [] ∧ w' = w
      else sleeps_of (log w') = sleeps_of (log w)
           ∧ log w' = log w ++ [EvFind (limit - in_flight w)]
           ∧ current_jobs w' = current_jobs w ∪ list_to_set (_id <$> tasks)
           ∧ in_flight w' ≤ limit.
Proof.
  intros limit. unfold process_jobs_dispatch, in_flight.
  unfold mbind, M_bind, mret, M_ret, get. cbv beta iota zeta.
  fold limit. destruct (Z.geb_spec (Z.of_nat (size (current_jobs w))) limit)
    as [Hfull|Hfree].
  - exists [], w. split; [done|]. split; [simpl; lia|]. split; [done|].
    by destruct (decide _); [|lia].
  - destruct (find_pending_length (limit - Z.of_nat (size (current_jobs w))) w)
      as (jobs & -> & Hjobs); [lia|].
    destruct (decide _) as [|_]; [lia|].
    destruct jobs as [|job rest].
    + eexists [], _. split; [done|]. split; [simpl; lia|]. split; [done|].
      simpl. split; [|split; [done|split]].
      * unfold sleeps_of. by rewrite omap_app, app_nil_r.
      * by rewrite union_empty_r_L.
      * lia.
    + destruct (create_tasks_spec (job :: rest)
                  (emit (EvFind (limit - Z.of_nat (size (current_jobs w)))) w))
        as (tasks & -> & Hlen & Hsize).
      eexists tasks, _. split; [done|]. simpl in *.
      split; [lia|]. split; [done|]. split; [|split; [done|split; [done|lia]]].
      unfold sleeps_of. by rewrite omap_app, app_nil_r.
Qed.

End PollTick.

(** ** Tasks and the main loop *)

Section EventLoop.
Import Store Worker.

(** Run from one [await] to the next, a task does what
    [_process_single_job] does. *)
Lemma run_task_agrees env job w :
  run_task env job 5 AtStart w
  = (Finished, (_process_single_job env job w).2).
Proof.
  rewrite retry_transparent.
  unfold process_single_job_body, run_task, task_step, in_try, to_end,
    finally_clause.
  open_m. rewrite update_job_status_eq.
  destruct (robots_can_fetch env (url job) _) as [[[]|e] w2]; simpl.
  - destruct (_scrape_page env _ _ _ _) as [[r|e] w3]; simpl;
      by rewrite update_job_status_eq.
  - by rewrite update_job_status_eq.
  - by rewrite update_job_status_eq.
Qed.

(** A task only ever takes its own id out of [current_jobs]. *)
Lemma task_step_current_jobs env job pc w :
  current_jobs (task_step env job pc w).2 ⊆ current_jobs w.
Proof.
  destruct pc; unfold task_step, in_try, to_end, finally_clause; open_m;
    rewrite ?update_job_status_eq; simpl; try done.
  - destruct (robots_can_fetch_quiet env (url job) w)
      as (b & w' & -> & (_ & Hcj & _) & _).
    destruct b; simpl; by rewrite Hcj.
  - destruct (scrape_page_quiet env (_id job) (url job) (options job) w)
      as (o & w' & -> & (_ & Hcj & _) & _).
    destruct o; simpl; by rewrite Hcj.
  - apply subseteq_difference_l. done.
  - apply subseteq_difference_l. done.
Qed.

Lemma task_step_within_limit env job pc w :
  within_limit env w → within_limit env (task_step env job pc w).2.
Proof.
  unfold within_limit, in_flight. intros Hw.
  pose proof (subseteq_size _ _ (task_step_current_jobs env job pc w)). lia.
Qed.

Lemma all_finished_lookup tasks i job pc :
  all_finished tasks = true → tasks !! i = Some (job, pc) → pc = Finished.
Proof.
  unfold all_finished. rewrite forallb_forall. intros Hall Hi.
  apply list_elem_of_lookup_2, list_elem_of_In, Hall in Hi.
  by destruct pc.
Qed.

Lemma all_finished_app a b :
  all_finished (a ++ b) = all_finished a && all_finished b.
Proof. apply forallb_app. Qed.

(** No step of the loop or of a task breaks [settled]: the main loop
    leaves a gather only when the tasks it created are finished, and
    creates tasks only in a poll. *)
Lemma loop_step_settled env c l l' :
  loop_step env c l = Some l' → settled l = true → settled l' = true.
Proof.
  destruct c as [|i]; simpl.
  - unfold main_step, settled.
    destruct (main l) as [|first|] eqn:Hmain.
    + destruct (is_running (world l)); [|done].
      destruct (process_jobs_dispatch env (world l)) as [[[|t ts]|e] w'];
        intros [= <-]; simpl; try done.
      intros Hl. by rewrite take_app_length.
    + destruct (forallb _ (drop first (pool l))) eqn:Hdrop; [|done].
      intros [= <-] Htake. simpl.
      rewrite <- (take_drop first (pool l)), all_finished_app.
      by rewrite Htake.
    + by intros [= <-].
  - unfold task_turn, settled.
    destruct (pool l !! i) as [[job pc]|] eqn:Hi; [|done].
    destruct (is_finished pc) eqn:Hpc; [done|].
    destruct (task_step env job pc (world l)) as [pc' w'].
    intros [= <-]; simpl.
    destruct (main l) as [|first|].
    + intros Hall. rewrite (all_finished_lookup _ _ _ _ Hall Hi) in Hpc. done.
    + intros Hall. destruct (decide (first ≤ i)%nat) as [Hle|Hgt].
      * by rewrite take_insert_ge.
      * assert (take first (pool l) !! i = Some (job, pc)) as Hi'.
        { rewrite lookup_take_lt by lia. done. }
        rewrite (all_finished_lookup _ _ _ _ Hall Hi') in Hpc. done.
    + intros Hall. rewrite (all_finished_lookup _ _ _ _ Hall Hi) in Hpc. done.
Qed.

Lemma loop_step_within_limit env c l l' :
  loop_step env c l = Some l' →
  within_limit env (world l) → within_limit env (world l').
Proof.
  destruct c as [|i]; simpl.
  - unfold main_step.
    destruct (main l) as [|first|].
    + destruct (is_running (world l)); [|done].
      destruct (dispatch_spec env (world l)) as (tasks & w' & -> & _ & _ & Hw').
      intros Hl' Hw.
      assert (world l' = w') as ->.
      { by destruct tasks; injection Hl' as <-. }
      unfold within_limit in *.
      destruct (decide _) as [_|_]; [by destruct Hw' as [_ ->] | apply Hw'].
    + destruct (forallb _ _); [|done]. by intros [= <-].
    + by intros [= <-].
  - unfold task_turn.
    destruct (pool l !! i) as [[job pc]|]; [|done].
    destruct (is_finished pc); [done|].
    pose proof (task_step_within_limit env job pc (world l)) as Hstep.
    destruct (task_step env job pc (world l)) as [pc' w'].
    by intros [= <-].
Qed.

Lemma run_invariant env (P : Loop → Prop) :
  (∀ c l l', loop_step env c l = Some l' → P l → P l') →
  ∀ schedule l l', run env schedule l = Some l' → P l → P l'.
Proof.
  intros Hstep. induction schedule as [|c rest IH]; simpl; intros l l'.
  - by intros [= <-].
  - destruct (loop_step env c l) as [l1|] eqn:Hc; [|done].
    intros Hrun Hl. eapply IH; [exact Hrun|]. by eapply Hstep.
Qed.

Lemma reachable_settled env w l : reachable env w l → settled l = true.
Proof.
  intros [schedule Hrun].
  eapply (run_invariant env (λ l, settled l = true)); [|exact Hrun|done].
  apply loop_step_settled.
Qed.

Lemma reachable_within_limit env w l :
  reachable env w l → within_limit env w → within_limit env (world l).
Proof.
  intros [schedule Hrun] Hw.
  eapply (run_invariant env (λ l, within_limit env (world l)));
    [|exact Hrun|done].
  apply loop_step_within_limit.
Qed.

Lemma task_step_is_running env job pc w :
  is_running (task_step env job pc w).2 = is_running w.
Proof.
  destruct pc; unfold task_step, in_try, to_end, finally_clause; open_m;
    rewrite ?update_job_status_eq; simpl; try done.
  - destruct (robots_can_fetch_quiet env (url job) w)
      as (b & w' & -> & (_ & _ & Hr & _) & _).
    destruct b; simpl; by rewrite Hr.
  - destruct (scrape_page_quiet env (_id job) (url job) (options job) w)
      as (o & w' & -> & (_ & _ & Hr & _) & _).
    destruct o; simpl; by rewrite Hr.
Qed.

Lemma loop_step_is_running env c l l' :
  loop_step env c l = Some l' →
  is_running (world l) = true → is_running (world l') = true.
Proof.
  destruct c as [|i]; simpl.
  - unfold main_step.
    destruct (main l) as [|first|].
    + destruct (is_running (world l)) eqn:Hrun; [|done].
      destruct (dispatch_spec env (world l)) as (tasks & w' & -> & _ & Hr & _).
      intros Hl' _. rewrite Hrun in Hr.
      by destruct tasks; injection Hl' as <-.
    + destruct (forallb _ _); [|done]. by intros [= <-].
    + by intros [= <-].
  - unfold task_turn.
    destruct (pool l !! i) as [[job pc]|]; [|done].
    destruct (is_finished pc); [done|].
    pose proof (task_step_is_running env job pc (world l)) as Hstep.
    destruct (task_step env job pc (world l)) as [pc' w'].
    intros [= <-]. simpl in *. by rewrite Hstep.
Qed.

Lemma reachable_is_running env w l :
  reachable env w l → is_running (world l) = true.
Proof.
  intros [schedule Hrun].
  eapply (run_invariant env (λ l, is_running (world l) = true));
    [|exact Hrun|done].
  apply loop_step_is_running.
Qed.

(** C5, as the code has it: the tasks of a tick run interleaved with
    each other, any unfinished one may run next, but the main loop
    stays at its gather until every task it created in the tick is
    finished; whenever it sleeps or polls, no task is left running. *)
Theorem gather_is_a_barrier env w l :
  reachable env w l →
  match main l with
  | Gathering first =>
      all_finished (take first (pool l)) = true
      ∧ main_step env l
        = (if all_finished (drop first (pool l))
           then Some (mkLoop Sleeping (pool l) (world l)) else None)
  | Polling | Sleeping =>
      all_finished (pool l) = true ∧ is_Some (main_step env l)
  end
  ∧ ∀ i job pc,
      pool l !! i = Some (job, pc) → is_finished pc = false →
      is_Some (loop_step env (RunTask i) l).
Proof.
  intros Hl. pose proof (reachable_settled env w l Hl) as Hs.
  pose proof (reachable_is_running env w l Hl) as Hr.
  split.
  - unfold settled in Hs. unfold main_step.
    destruct (main l) as [|first|]; (split; [done|]).
    + rewrite Hr.
      destruct (dispatch_spec env (world l)) as (tasks & w' & -> & _).
      by destruct tasks.
    + done.
    + done.
  - intros i job pc Hi Hpc. simpl. unfold task_turn. rewrite Hi, Hpc.
    by destruct (task_step env job pc (world l)).
Qed.

Lemma gather_is_a_barrier_witness :
  let env := Scenario.steady in
  let w := Scenario.fresh_worker Scenario.four_pending in
  ∃ l,
    run env Scenario.interleaved (start w) = Some l
    ∧ (match main l with
       | Gathering first =>
           all_finished (take first (pool l)) = true
           ∧ main_step env l
             = (if all_finished (drop first (pool l))
                then Some (mkLoop Sleeping (pool l) (world l)) else None)
       | Polling | Sleeping =>
           all_finished (pool l) = true ∧ is_Some (main_step env l)
       end
       ∧ ∀ i job pc,
           pool l !! i = Some (job, pc) → is_finished pc = false →
           is_Some (loop_step env (RunTask i) l)).
Proof.
  destruct (run Scenario.steady Scenario.interleaved
              (start (Scenario.fresh_worker Scenario.four_pending)))
    as [l|] eqn:Hrun.
  - exists l. split; [done|].
    apply (gather_is_a_barrier Scenario.steady
             (Scenario.fresh_worker Scenario.four_pending)).
    by exists Scenario.interleaved.
  - by vm_compute in Hrun.
Defined.

(** C5 as stated fails: with four pending jobs, no run of the loop
    reaches its sleep or its next poll while a task is unfinished. *)
Lemma loop_never_runs_ahead :
  ¬ Design.loop_runs_ahead Scenario.steady
      (Scenario.fresh_worker Scenario.four_pending).
Proof.
  intros (l & Hl & Hmain & Hopen).
  pose proof (reachable_settled _ _ _ Hl) as Hs. unfold settled in Hs.
  destruct Hmain as [Hm|Hm]; rewrite Hm in Hs; congruence.
Qed.

(** C6: in every state the worker reaches from within the limit,
    [current_jobs] is within the limit, and a poll returns with at most
    [limit - len(current_jobs)] new tasks; at or over the limit it
    changes nothing and sends no query, under it it sends one query
    limited to the free capacity and stays within the limit. *)
Theorem in_flight_within_limit env w l :
  reachable env w l →
  within_limit env w →
  let limit := MAX_CONCURRENT_JOBS (config env) in
  within_limit env (world l)
  ∧ ∃ tasks w',
      process_jobs_dispatch env (world l) = (Return tasks, w')
      ∧ Z.of_nat (length tasks) ≤ Z.max 0 (limit - in_flight (world l))
      ∧ if decide (limit ≤ in_flight (world l))
        then tasks = [] ∧ w' = world l
        else log w' = log (world l) ++ [EvFind (limit - in_flight (world l))]
             ∧ within_limit env w'.
Proof.
  intros Hl Hw limit. split; [by eapply reachable_within_limit|].
  destruct (dispatch_spec env (world l))
    as (tasks & w' & Hd & Hlen & _ & Hrest).
  exists tasks, w'. split; [done|]. split; [done|].
  destruct (decide _); [done|].
  by destruct Hrest as (_ & Hlog & _ & Hlim).
Qed.

Lemma in_flight_within_limit_witness :
  let env := Scenario.steady in
  let w := Scenario.fresh_worker Scenario.four_pending in
  let limit := MAX_CONCURRENT_JOBS (config env) in
  within_limit env w
  ∧ ∃ l,
      run env Scenario.interleaved (start w) = Some l
      ∧ within_limit env (world l)
      ∧ ∃ tasks w',
          process_jobs_dispatch env (world l) = (Return tasks, w')
          ∧ Z.of_nat (length tasks) ≤ Z.max 0 (limit - in_flight (world l))
          ∧ if decide (limit ≤ in_flight (world l))
            then tasks = [] ∧ w' = world l
            else log w'
                 = log (world l) ++ [EvFind (limit - in_flight (world l))]
                 ∧ within_limit env w'.
Proof.
  assert (within_limit Scenario.steady
            (Scenario.fresh_worker Scenario.four_pending)) as Hw
    by (by vm_compute).
  split; [exact Hw|].
  destruct (run Scenario.steady Scenario.interleaved
              (start (Scenario.fresh_worker Scenario.four_pending)))
    as [l|] eqn:Hrun.
  - exists l. split; [done|].
    apply (in_flight_within_limit Scenario.steady
             (Scenario.fresh_worker Scenario.four_pending)); [|exact Hw].
    by exists Scenario.interleaved.
  - by vm_compute in Hrun.
Defined.

End EventLoop.

(** ** Shutdown *)

Section Shutdown.
Import Store Worker.

Lemma remaining_empty finishing k n : remaining finishing k n ∅ = ∅.
Proof.
  revert k. induction n as [|n IH]; intros k; simpl; [done|].
  by rewrite difference_disjoint_L, IH by set_solver.
Qed.

(** The wait ends exactly when the jobs in flight have all finished
    within the rounds looked at; until then it sleeps a second at a
    time and changes nothing else. *)
Lemma shutdown_wait_spec fuel finishing k w :
  if decide (remaining finishing k fuel (current_jobs w) = ∅)
  then ∃ w' rounds,
         shutdown_wait fuel finishing k w = Some w'
         ∧ (rounds ≤ fuel)%nat
         ∧ log w' = log w ++ replicate rounds (EvSleep 1)
         ∧ current_jobs w' = ∅
         ∧ is_running w' = is_running w
         ∧ has_context w' = has_context w
         ∧ has_browser w' = has_browser w
         ∧ has_client w' = has_client w
  else shutdown_wait fuel finishing k w = None.
Proof.
  revert k w. induction fuel as [|fuel IH]; intros k w; simpl.
  - destruct (decide (current_jobs w = ∅)) as [He|Hne]; [|done].
    exists w, 0%nat. simpl. by rewrite app_nil_r.
  - destruct (decide (current_jobs w = ∅)) as [He|Hne].
    + rewrite He, difference_disjoint_L, remaining_empty by set_solver.
      destruct (decide _); [|done].
      exists w, 0%nat. simpl. rewrite app_nil_r. repeat split; [lia | done].
    + specialize (IH (S k)
        (set_current_jobs (λ s, s ∖ finishing k) (emit (EvSleep 1) w))).
      simpl in IH. destruct (decide _); [|done].
      destruct IH as (w' & rounds & -> & ? & Hlog & ? & ? & ? & ? & ?).
      exists w', (S rounds). repeat split; try done; [lia|].
      rewrite Hlog. simpl. by rewrite <- app_assoc.
Qed.

(** C9, as the code has it: [shutdown] clears [is_running] and waits,
    with no timeout, until [current_jobs] is empty; when that happens
    within the rounds looked at it has slept a second per round, closes
    the handles it holds and returns; when it does not, the wait is
    still going on. *)
Theorem shutdown_waits_for_drain fuel finishing w :
  if decide (remaining finishing 0 fuel (current_jobs w) = ∅)
  then ∃ w' rounds,
         shutdown fuel finishing w = Some w'
         ∧ (rounds ≤ fuel)%nat
         ∧ is_running w' = false
         ∧ current_jobs w' = ∅
         ∧ log w'
           = log w ++ replicate rounds (EvSleep 1)
             ++ (if has_context w then [EvClose "context"] else [])
             ++ (if has_browser w then [EvClose "browser"] else [])
             ++ (if has_client w then [EvClose "client"] else [])
  else shutdown fuel finishing w = None.
Proof.
  unfold shutdown.
  pose proof (shutdown_wait_spec fuel finishing 0 (set_is_running false w))
    as Hwait. simpl in Hwait.
  destruct (decide _); [|by rewrite Hwait].
  destruct Hwait as (w1 & rounds & -> & Hr & Hlog & Hcj & Hrun & Hc & Hb & Hcl).
  simpl. eexists _, rounds. split; [done|]. split; [done|].
  unfold close_handle. rewrite Hc.
  destruct (has_context w); simpl; rewrite Hb;
    destruct (has_browser w); simpl; rewrite Hcl;
    destruct (has_client w); simpl;
    rewrite Hlog, ?app_nil_r, <- ?app_assoc; done.
Qed.

Lemma shutdown_never_returns fuel :
  shutdown fuel Scenario.nothing_finishes Scenario.busy_worker = None.
Proof.
  unfold shutdown.
  pose proof (shutdown_wait_spec fuel Scenario.nothing_finishes 0
                (set_is_running false Scenario.busy_worker)) as Hwait.
  assert (∀ k n s, remaining Scenario.nothing_finishes k n s = s) as Hsame.
  { intros k n. revert k. induction n as [|n IH]; intros k s; simpl; [done|].
    rewrite IH. unfold Scenario.nothing_finishes. set_solver. }
  rewrite Hsame in Hwait. destruct (decide _) as [He|_]; [|by rewrite Hwait].
  exfalso. exact (non_empty_singleton_L Scenario.first_id He).
Qed.

(** C9 as stated fails: with one job in flight that never finishes, no
    number of rounds ends the wait. *)
Lemma shutdown_waits_forever :
  ¬ Design.shutdown_is_bounded Scenario.nothing_finishes Scenario.busy_worker.
Proof.
  intros [fuel [w' Hdone]].
  pose proof (shutdown_never_returns fuel) as Hnone.
  congruence.
Qed.

End Shutdown.

(** ** A job among other writers *)

Section Lifecycle.
Import Store Worker Writers.

Lemma find_one_app job_id c j :
  find_one job_id (c ++ [j])
  = match find_one job_id c with
    | Some found => Some found
    | None => if N.eqb (_id j) job_id then Some j else None
    end.
Proof.
  induction c as [|k c IH]; simpl; [done|].
  destruct (N.eqb (_id k) job_id); [done | exact IH].
Qed.

Lemma delete_one_other job_id other c :
  other ≠ job_id →
  find_one job_id (delete_one other c).1 = find_one job_id c.
Proof.
  intros Hne. induction c as [|k c IH]; simpl; [done|].
  destruct (N.eqb_spec (_id k) other) as [Heq|Hne'].
  - simpl. destruct (N.eqb_spec (_id k) job_id); [congruence | done].
  - destruct (delete_one other c) as [c' n]. simpl in *. by rewrite IH.
Qed.

(** A write about another job leaves the document of this one as it
    is. *)
Lemma apply_write_elsewhere job_id wr c :
  written wr ≠ job_id →
  find_one job_id (apply_write wr c) = find_one job_id c.
Proof.
  destruct wr as [job|other u|other]; simpl; intros Hne.
  - unfold Api.insert_one. destruct (find_one (_id job) c); [done|].
    rewrite find_one_app. destruct (find_one job_id c); [done|].
    by destruct (N.eqb_spec (_id job) job_id).
  - by apply update_one_other.
  - by apply delete_one_other.
Qed.

Lemma apply_writes_elsewhere job_id ws c :
  forallb (λ wr, negb (N.eqb (written wr) job_id)) ws = true →
  find_one job_id (apply_writes ws c) = find_one job_id c.
Proof.
  unfold apply_writes. revert c.
  induction ws as [|wr ws IH]; intros c; simpl; [done|].
  intros [Hwr Hws]%andb_true_iff. rewrite (IH _ Hws).
  apply apply_write_elsewhere. intros Heq.
  rewrite Heq, N.eqb_refl in Hwr. done.
Qed.

(** What [update_one] does to the document of its id. *)
Lemma update_one_at job_id u c :
  find_one job_id (update_one job_id u c).1 = apply_set u <$> find_one job_id c
  ∧ (update_one job_id u c).2
    = match find_one job_id c with Some _ => 1%nat | None => 0%nat end.
Proof.
  destruct (find_one job_id c) as [j|] eqn:Hj.
  - by destruct (update_one_found job_id u c j Hj) as (c' & -> & Hc').
  - by rewrite (update_one_missing job_id u c Hj).
Qed.

Lemma set_jobs_collection_same w :
  set_jobs_collection (λ _, jobs_collection w) w = w.
Proof. by destruct w. Qed.

(** A status update sees of the collection only the document of its
    id. *)
Lemma after_status_sim env job_id st r e w c :
  find_one job_id c = find_one job_id (jobs_collection w) →
  ∃ c', after_status env job_id st r e (set_jobs_collection (λ _, c) w)
        = set_jobs_collection (λ _, c') (after_status env job_id st r e w)
        ∧ find_one job_id c'
          = find_one job_id
              (jobs_collection (after_status env job_id st r e w)).
Proof.
  intros Hc. unfold after_status. cbn [jobs_collection set_jobs_collection
    set_clock_reads emit].
  set (u := status_doc env st r e (set_jobs_collection (λ _, c) w)).
  assert (status_doc env st r e w = u) as -> by done.
  destruct (update_one_at job_id u c) as [Hfound Hmatched].
  destruct (update_one_at job_id u (jobs_collection w)) as [Hfound' Hmatched'].
  exists (update_one job_id u c).1. split.
  - unfold set_jobs_collection, set_clock_reads, emit. simpl.
    by rewrite Hmatched, Hmatched', Hc.
  - simpl. by rewrite Hfound, Hfound', Hc.
Qed.

(** The robots check and the scrape of a page do not look at the
    collection. *)
Lemma robots_can_fetch_sim env url w c :
  robots_can_fetch env url (set_jobs_collection (λ _, c) w)
  = ((robots_can_fetch env url w).1,
     set_jobs_collection (λ _, c) (robots_can_fetch env url w).2).
Proof.
  unfold robots_can_fetch, on_robots_cache, now, mbind, M_bind. simpl.
  by destruct (Robots.can_fetch _ _ _ _ _ _).
Qed.

Lemma scrape_page_sim env job_id url opts w c :
  _scrape_page env job_id url opts (set_jobs_collection (λ _, c) w)
  = ((_scrape_page env job_id url opts w).1,
     set_jobs_collection (λ _, c) (_scrape_page env job_id url opts w).2).
Proof.
  unfold _scrape_page. open_m.
  destruct (new_page _) as [[]|e]; simpl; [|done].
  destruct (timeout_ms env opts) as [timeout|e]; simpl; [|done].
  destruct (goto _) as [[response|]|e]; simpl; [|done..].
  destruct (_ >=? _); simpl; [done|].
  destruct (wait_for_load_state _) as [[]|e]; simpl; [|done].
  destruct (content _) as [html|e]; simpl; [|done].
  destruct (_ >? _); simpl; [done|].
  by destruct (dom_elements _) as [dom|e].
Qed.

(** A stretch of a task sees of the collection only the document of
    its job. *)
Lemma task_step_sim env job pc w c :
  find_one (_id job) c = find_one (_id job) (jobs_collection w) →
  ∃ c', task_step env job pc (set_jobs_collection (λ _, c) w)
        = ((task_step env job pc w).1,
           set_jobs_collection (λ _, c') (task_step env job pc w).2)
        ∧ find_one (_id job) c'
          = find_one (_id job) (jobs_collection (task_step env job pc w).2).
Proof.
  intros Hc.
  destruct pc as [| | | |r|e|]; unfold task_step, in_try, to_end, finally_clause.
  - open_m. rewrite !update_job_status_eq.
    destruct (after_status_sim env (_id job) IN_PROGRESS None None w c Hc)
      as (c' & -> & Hc').
    by exists c'.
  - unfold mbind, M_bind. rewrite robots_can_fetch_sim.
    destruct (robots_can_fetch_quiet env (url job) w)
      as (b & w' & -> & (Hq & _) & _).
    exists c. destruct b; open_m; by rewrite Hq.
  - open_m. by exists c.
  - unfold mbind, M_bind. rewrite scrape_page_sim.
    destruct (scrape_page_quiet env (_id job) (url job) (options job) w)
      as (o & w' & -> & (Hq & _) & _).
    exists c. destruct o; open_m; by rewrite Hq.
  - open_m. rewrite !update_job_status_eq.
    destruct (after_status_sim env (_id job) COMPLETED (Some r) None w c
                Hc) as (c' & -> & Hc').
    by exists c'.
  - open_m. rewrite !update_job_status_eq.
    destruct (after_status_sim env (_id job) FAILED None (Some (str e)) w c
                Hc) as (c' & -> & Hc').
    by exists c'.
  - by exists c.
Qed.

(** Among writes about other jobs, a task goes through the states of
    a run on its own. *)
Lemma run_task_among_sim env job others pc w c :
  elsewhere (_id job) others = true →
  find_one (_id job) c = find_one (_id job) (jobs_collection w) →
  ∃ c', run_task_among env job others pc (set_jobs_collection (λ _, c) w)
        = ((run_task env job (length others) pc w).1,
           set_jobs_collection (λ _, c')
             (run_task env job (length others) pc w).2)
        ∧ find_one (_id job) c'
          = find_one (_id job)
              (jobs_collection (run_task env job (length others) pc w).2).
Proof.
  revert pc w c. induction others as [|ws rest IH]; intros pc w c; simpl.
  - intros _ Hc. by exists c.
  - intros [Hws Hrest]%andb_true_iff Hc.
    assert (find_one (_id job) (apply_writes ws c)
            = find_one (_id job) (jobs_collection w)) as Hc1.
    { by rewrite apply_writes_elsewhere. }
    destruct (task_step_sim env job pc w _ Hc1) as (c1 & Hstep & Hc1').
    change (set_jobs_collection (apply_writes ws)
              (set_jobs_collection (λ _, c) w))
      with (set_jobs_collection (λ _, apply_writes ws c) w).
    rewrite Hstep. destruct (task_step env job pc w) as [pc' w']. simpl in *.
    by apply IH.
Qed.

Lemma run_task_finished env job n w :
  run_task env job n Finished w = (Finished, w).
Proof. induction n as [|n IH]; [done|]. simpl. exact IH. Qed.

Lemma run_task_add env job n k pc w :
  run_task env job (n + k) pc w
  = run_task env job k (run_task env job n pc w).1
      (run_task env job n pc w).2.
Proof.
  revert pc w. induction n as [|n IH]; intros pc w; simpl; [done|].
  destruct (task_step env job pc w) as [pc' w']. apply IH.
Qed.

(** A task that has finished has done what [_process_single_job]
    does, and five stretches finish it. *)
Lemma run_task_end env job n w :
  let state := run_task env job n AtStart w in
  (state.1 = Finished → state.2 = (_process_single_job env job w).2)
  ∧ ((5 ≤ n)%nat → state.1 = Finished).
Proof.
  simpl. pose proof (run_task_agrees env job w) as Hfive. split.
  - intros Hpc. destruct (decide (n ≤ 5)%nat) as [Hle|Hgt].
    + replace 5%nat with (n + (5 - n))%nat in Hfive by lia.
      rewrite run_task_add, Hpc, run_task_finished in Hfive.
      by injection Hfive.
    + replace n with (5 + (n - 5))%nat by lia.
      by rewrite run_task_add, Hfive, run_task_finished.
  - intros Hn. replace n with (5 + (n - 5))%nat by lia.
    by rewrite run_task_add, Hfive, run_task_finished.
Qed.

Lemma task_step_start env job w :
  task_step env job AtStart w
  = (AtRobots, after_status env (_id job) IN_PROGRESS None None w).
Proof.
  unfold task_step, in_try. open_m. by rewrite update_job_status_eq.
Qed.

(** Between its first stretch and its last, a task leaves the job as
    its first update made it. *)
Lemma run_task_mid env job n pc w0 started :
  match pc with
  | AtStart | Finished => False
  | _ => find_one (_id job) (jobs_collection w0) = Some started
  end →
  match (run_task env job n pc w0).1 with
  | AtStart => False
  | Finished => True
  | _ => find_one (_id job) (jobs_collection (run_task env job n pc w0).2)
         = Some started
  end.
Proof.
  revert pc w0. induction n as [|n IH]; intros pc w0 Hpc.
  - simpl. by destruct pc.
  - simpl. destruct (task_step env job pc w0) as [pc' w'] eqn:Hstep.
    destruct (is_finished pc') eqn:Hrun.
    { destruct pc'; try done. by rewrite run_task_finished. }
    apply IH. revert Hstep.
    destruct pc; try done; unfold task_step, in_try, to_end, finally_clause.
    + unfold mbind, M_bind.
      destruct (robots_can_fetch_quiet env (url job) w0)
        as (b & w1 & -> & (Hq & _) & _).
      destruct b; simpl; intros [= <- <-]; by rewrite Hq.
    + open_m. by intros [= <- <-].
    + unfold mbind, M_bind.
      destruct (scrape_page_quiet env (_id job) (url job) (options job) w0)
        as (o & w1 & -> & (Hq & _) & _).
      destruct o; simpl; intros [= <- <-]; by rewrite Hq.
    + open_m. rewrite update_job_status_eq. intros [= <- _]. done.
    + open_m. rewrite update_job_status_eq. intros [= <- _]. done.
Qed.

(** The states of a job while a task runs it among writes about other
    jobs: as it was found before the first stretch, as the in_progress
    update made it until the last, and as [_process_single_job] leaves
    it from then on. *)
Lemma run_task_among_states env job w j0 others :
  find_one (_id job) (jobs_collection w) = Some j0 →
  elsewhere (_id job) others = true →
  let started := apply_set (status_doc env IN_PROGRESS None None w) j0 in
  let final := (_process_single_job env job w).2 in
  ∃ pc w',
    run_task_among env job others AtStart w = (pc, w')
    ∧ ((5 ≤ length others)%nat → pc = Finished)
    ∧ match pc with
      | AtStart => find_one (_id job) (jobs_collection w') = Some j0
      | Finished =>
          find_one (_id job) (jobs_collection w')
          = find_one (_id job) (jobs_collection final)
          ∧ current_jobs w' = current_jobs final
      | _ => find_one (_id job) (jobs_collection w') = Some started
      end.
Proof.
  intros Hj Hothers started final.
  destruct (run_task_among_sim env job others AtStart w (jobs_collection w)
              Hothers eq_refl) as (c' & Hrun & Hc').
  rewrite set_jobs_collection_same in Hrun.
  destruct (run_task_end env job (length others) w) as [Hend Hfive].
  do 2 eexists. split; [exact Hrun|]. split; [exact Hfive|]. simpl.
  destruct others as [|ws rest].
  { simpl in *. by rewrite Hc'. }
  cbn [length run_task] in *. rewrite task_step_start in *.
  destruct (after_status_found env (_id job) IN_PROGRESS None None w j0 Hj)
    as [Hstarted _].
  pose proof (run_task_mid env job (length rest) AtRobots
                (after_status env (_id job) IN_PROGRESS None None w)
                started Hstarted) as Hmid.
  destruct (run_task env job (length rest) AtRobots _) as [pc w1].
  simpl in *.
  destruct pc; try done; try (by rewrite Hc').
  by rewrite Hc', (Hend eq_refl).
Qed.

(** C7, as the code has it: when every write other processes make
    during the run is about other jobs, a run that raises leaves the job
    failed, with the message of the exception as [error] when that
    message is not empty, and a run that returns leaves it completed
    with its result; either way the task finishes within its five
    stretches and the id of the job is out of [current_jobs]. *)
Theorem job_ends_terminal env job w j0 others :
  find_one (_id job) (jobs_collection w) = Some j0 →
  elsewhere (_id job) others = true →
  (5 ≤ length others)%nat →
  ∃ w' j,
    run_task_among env job others AtStart w = (Finished, w')
    ∧ (_id job ∉ current_jobs w')
    ∧ find_one (_id job) (jobs_collection w') = Some j
    ∧ match (attempt env job w).1 with
      | Raise e =>
          status j = FAILED
          ∧ if str_truthy (str e) then error j = Some (str e) else True
      | Return r => status j = COMPLETED ∧ result j = Some r
      end.
Proof.
  intros Hj Hothers Hfive.
  destruct (run_task_among_states env job w j0 others Hj Hothers)
    as (pc & w' & Hrun & Hpc & Hstate).
  rewrite (Hpc Hfive) in Hrun, Hstate. destruct Hstate as [Hfound Hcj].
  destruct (processed_job env job w j0 Hj)
    as (o & w1 & Ha & _ & Ho & _ & _ & Hend & Hout & _).
  simpl in Hend, Hout.
  exists w'. eexists. split; [exact Hrun|]. split.
  { rewrite Hcj, Hout. intros [_ Hin]%elem_of_difference.
    by apply Hin, elem_of_singleton. }
  split; [by rewrite Hfound|].
  rewrite Ha. simpl. destruct o as [r|e]; simpl.
  - by rewrite Ho.
  - split; [done|]. by destruct (str e).
Qed.

Lemma job_ends_terminal_witness :
  let job := Scenario.first_job in
  let w := Scenario.fresh_worker [job] in
  find_one (_id job) (jobs_collection w) = Some job
  ∧ elsewhere (_id job) Scenario.meanwhile = true
  ∧ (5 ≤ length Scenario.meanwhile)%nat
  ∧ ∃ w' j,
      run_task_among Scenario.flaky job Scenario.meanwhile AtStart w
      = (Finished, w')
      ∧ (_id job ∉ current_jobs w')
      ∧ find_one (_id job) (jobs_collection w') = Some j
      ∧ match (attempt Scenario.flaky job w).1 with
        | Raise e =>
            status j = FAILED
            ∧ if str_truthy (str e) then error j = Some (str e) else True
        | Return r => status j = COMPLETED ∧ result j = Some r
        end.
Proof.
  assert (5 ≤ length Scenario.meanwhile)%nat as Hfive by (simpl; lia).
  split; [reflexivity|]. split; [reflexivity|]. split; [exact Hfive|].
  exact (job_ends_terminal Scenario.flaky Scenario.first_job
           (Scenario.fresh_worker [Scenario.first_job])
           Scenario.first_job Scenario.meanwhile eq_refl eq_refl Hfive).
Defined.

(** C3, as the code has it: a created job is pending with [result] and
    [error] both null.  When a worker runs it and every write other
    processes make meanwhile is about other jobs, the job is in_progress
    with both still null from the first stretch of the task to its last,
    and terminal once the task has finished, with exactly one of the two
    set when the run returned or raised an exception whose message is
    not empty. *)
Theorem result_error_lifecycle request_url request_options now inserted_id c
    created c' env w others :
  Api.create_scrape_job request_url request_options now inserted_id c
  = (Api.Ok created, c') →
  jobs_collection w = c' →
  elsewhere (_id created) others = true →
  Design.result_error_ok created = true
  ∧ ∃ pc w' j,
      run_task_among env created others AtStart w = (pc, w')
      ∧ ((5 ≤ length others)%nat → pc = Finished)
      ∧ find_one (_id created) (jobs_collection w') = Some j
      ∧ match pc with
        | AtStart => j = created
        | Finished =>
            is_terminal (status j) = true
            ∧ match (attempt env created w).1 with
              | Return _ => Design.result_error_ok j = true
              | Raise e =>
                  if str_truthy (str e)
                  then Design.result_error_ok j = true
                  else True
              end
        | _ => status j = IN_PROGRESS ∧ Design.result_error_ok j = true
        end.
Proof.
  intros Hcreate Hw Hothers.
  destruct (created_job_is_blank _ _ _ _ _ _ _ Hcreate)
    as (Hfound & Hid & Hst & Hres & Herr).
  split.
  { unfold Design.result_error_ok. by rewrite Hst, Hres, Herr. }
  rewrite <- Hid, <- Hw in Hfound.
  destruct (run_task_among_states env created w created others Hfound Hothers)
    as (pc & w' & Hrun & Hpc & Hstate).
  destruct (processed_job env created w created Hfound)
    as (o & w1 & Ha & _ & Ho & _ & _ & Hend & _).
  simpl in Hend.
  exists pc, w'.
  assert (Design.result_error_ok
            (apply_set (status_doc env IN_PROGRESS None None w) created)
          = true) as Hmid.
  { unfold Design.result_error_ok. simpl. by rewrite Hres, Herr. }
  destruct pc; (eexists; split; [exact Hrun|]; split; [exact Hpc|]);
    try (split; [exact Hstate | done]).
  destruct Hstate as [Hfinal _]. rewrite Hend in Hfinal.
  split; [exact Hfinal|]. rewrite Ha. unfold Design.result_error_ok.
  destruct o as [r|e]; simpl; rewrite Hres, Herr.
  - by rewrite Ho.
  - split; [done|]. by destruct (str e).
Qed.

Lemma result_error_lifecycle_witness :
  let created := Scenario.first_job in
  let c' := [created] in
  let w := Scenario.fresh_worker c' in
  let env := Scenario.flaky in
  Api.create_scrape_job Scenario.public_url None 10 Scenario.first_id []
  = (Api.Ok created, c')
  ∧ jobs_collection w = c'
  ∧ elsewhere (_id created) Scenario.meanwhile = true
  ∧ Design.result_error_ok created = true
  ∧ ∃ pc w' j,
      run_task_among env created Scenario.meanwhile AtStart w = (pc, w')
      ∧ ((5 ≤ length Scenario.meanwhile)%nat → pc = Finished)
      ∧ find_one (_id created) (jobs_collection w') = Some j
      ∧ match pc with
        | AtStart => j = created
        | Finished =>
            is_terminal (status j) = true
            ∧ match (attempt env created w).1 with
              | Return _ => Design.result_error_ok j = true
              | Raise e =>
                  if str_truthy (str e)
                  then Design.result_error_ok j = true
                  else True
              end
        | _ => status j = IN_PROGRESS ∧ Design.result_error_ok j = true
        end.
Proof.
  split; [reflexivity|]. split; [reflexivity|]. split; [reflexivity|].
  exact (result_error_lifecycle Scenario.public_url None 10 Scenario.first_id
           [] Scenario.first_job [Scenario.first_job] Scenario.flaky
           (Scenario.fresh_worker [Scenario.first_job]) Scenario.meanwhile
           eq_refl eq_refl eq_refl).
Defined.

(** The condition on the other writers is needed: when a second worker
    completes the job a worker is running, the job whose run raised ends
    completed if the second worker writes last, and failed if the first
    one does, with [result] and [error] both set either way. *)
Lemma second_worker_breaks_pairing :
  let job := Scenario.first_job in
  let w := Scenario.fresh_worker [job] in
  let last_here := [[]; []; []; []; [Scenario.completed_elsewhere]] in
  let last_there := [[]; []; []; []; []; [Scenario.completed_elsewhere]] in
  (attempt Scenario.flaky job w).1
  = Raise (Exception "Timeout 30000ms exceeded.")
  ∧ (∃ j, find_one (_id job)
            (jobs_collection
               (run_task_among Scenario.flaky job last_here AtStart w).2)
          = Some j
          ∧ status j = FAILED
          ∧ Design.result_error_ok j = false)
  ∧ (∃ j, find_one (_id job)
            (jobs_collection
               (run_task_among Scenario.flaky job last_there AtStart w).2)
          = Some j
          ∧ status j = COMPLETED
          ∧ Design.result_error_ok j = false).
Proof.
  split; [by vm_compute|].
  split; eexists; (split; [by vm_compute|]); by vm_compute.
Qed.

End Lifecycle.

(** * Further properties of the code *)

(** ** Sorting by creation time *)

Section Sorting.
Import Store.

Lemma insert_by_created_perm j l : insert_by_created j l ≡ₚ j :: l.
Proof.
  induction l as [|k l IH]; simpl; [done|].
  destruct (createdAt j <=? createdAt k); [done|].
  by rewrite IH, Permutation_swap.
Qed.

Lemma sort_created_asc_perm l : sort_created_asc l ≡ₚ l.
Proof.
  induction l as [|j l IH]; simpl; [done|].
  by rewrite insert_by_created_perm, IH.
Qed.

Lemma insert_by_created_sorted j l :
  StronglySorted older l → StronglySorted older (insert_by_created j l).
Proof.
  induction l as [|k l IH]; simpl; intros Hs.
  - by repeat constructor.
  - apply StronglySorted_cons in Hs as [Hk Hl].
    destruct (Z.leb_spec (createdAt j) (createdAt k)) as [Hle|Hgt].
    + apply StronglySorted_cons. split; [|by apply StronglySorted_cons].
      constructor; [done|].
      eapply Forall_impl; [exact Hk|]. unfold older. intros; simpl in *. lia.
    + apply StronglySorted_cons. split; [|by apply IH].
      rewrite insert_by_created_perm. constructor; [|done].
      unfold older. lia.
Qed.

Lemma sort_created_asc_sorted l : StronglySorted older (sort_created_asc l).
Proof.
  induction l as [|j l IH]; simpl; [constructor|].
  by apply insert_by_created_sorted.
Qed.

Lemma insert_by_created_desc_perm j l : insert_by_created_desc j l ≡ₚ j :: l.
Proof.
  induction l as [|k l IH]; simpl; [done|].
  destruct (createdAt k <=? createdAt j); [done|].
  by rewrite IH, Permutation_swap.
Qed.

Lemma sort_created_desc_perm l : sort_created_desc l ≡ₚ l.
Proof.
  induction l as [|j l IH]; simpl; [done|].
  by rewrite insert_by_created_desc_perm, IH.
Qed.

Lemma insert_by_created_desc_sorted j l :
  StronglySorted newer l → StronglySorted newer (insert_by_created_desc j l).
Proof.
  induction l as [|k l IH]; simpl; intros Hs.
  - by repeat constructor.
  - apply StronglySorted_cons in Hs as [Hk Hl].
    destruct (Z.leb_spec (createdAt k) (createdAt j)) as [Hle|Hgt].
    + apply StronglySorted_cons. split; [|by apply StronglySorted_cons].
      constructor; [done|].
      eapply Forall_impl; [exact Hk|]. unfold newer. intros; simpl in *. lia.
    + apply StronglySorted_cons. split; [|by apply IH].
      rewrite insert_by_created_desc_perm. constructor; [|done].
      unfold newer. lia.
Qed.

Lemma sort_created_desc_sorted l : StronglySorted newer (sort_created_desc l).
Proof.
  induction l as [|j l IH]; simpl; [constructor|].
  by apply insert_by_created_desc_sorted.
Qed.

End Sorting.

Section Fifo.
Import Store Worker.

(** X1: the query of a poll answers with pending jobs of the
    collection, oldest first, as many as the limit allows; every pending
    job it leaves out was created no earlier than each job it
    returns. *)
Theorem poll_takes_oldest_pending n w :
  0 < n →
  ∃ jobs,
    db_find_pending n w = (Return jobs, emit (EvFind n) w)
    ∧ StronglySorted older jobs
    ∧ length jobs
      = (Z.to_nat n `min` count_status PENDING (jobs_collection w))%nat
    ∧ (∀ j, j ∈ jobs → j ∈ jobs_collection w ∧ status j = PENDING)
    ∧ (∀ j k, j ∈ jobs_collection w → status j = PENDING → j ∉ jobs →
              k ∈ jobs → createdAt k ≤ createdAt j).
Proof.
  intros Hn. unfold db_find_pending, to_list, limit, count_status.
  destruct (Z.eqb_spec n 0) as [|_]; [lia|].
  set (L := sort_created_asc (find_status PENDING (jobs_collection w))).
  eexists. split; [done|].
  rewrite take_take. replace (Z.abs_nat n) with (Z.to_nat n) by lia.
  rewrite Nat.min_id.
  pose proof (sort_created_asc_sorted
                (find_status PENDING (jobs_collection w))) as Hsorted.
  fold L in Hsorted.
  pose proof (sort_created_asc_perm
                (find_status PENDING (jobs_collection w))) as Hperm.
  fold L in Hperm.
  rewrite <- (take_drop (Z.to_nat n) L) in Hsorted.
  split; [by eapply StronglySorted_app_1_l|].
  split; [by rewrite length_take, <- Hperm; lia|].
  split.
  - intros j Hj. apply elem_of_take in Hj as (i & Hi & _).
    apply list_elem_of_lookup_2 in Hi. rewrite Hperm in Hi.
    unfold find_status in Hi. apply list_elem_of_filter in Hi. tauto.
  - intros j k Hj Hst Hout Hk.
    assert (j ∈ L) as HjL.
    { rewrite Hperm. unfold find_status. by apply list_elem_of_filter. }
    rewrite <- (take_drop (Z.to_nat n) L) in HjL.
    apply elem_of_app in HjL as [Hin|Hin]; [done|].
    exact (StronglySorted_app_1_elem_of _ _ _ _ _ Hsorted Hk Hin).
Qed.

Lemma poll_takes_oldest_pending_witness :
  let w := Scenario.fresh_worker Scenario.four_pending in
  0 < 3
  ∧ ∃ jobs,
      db_find_pending 3 w = (Return jobs, emit (EvFind 3) w)
      ∧ StronglySorted older jobs
      ∧ length jobs
        = (Z.to_nat 3 `min` count_status PENDING (jobs_collection w))%nat
      ∧ (∀ j, j ∈ jobs → j ∈ jobs_collection w ∧ status j = PENDING)
      ∧ (∀ j k, j ∈ jobs_collection w → status j = PENDING → j ∉ jobs →
                k ∈ jobs → createdAt k ≤ createdAt j).
Proof.
  split; [done|].
  exact (poll_takes_oldest_pending 3
           (Scenario.fresh_worker Scenario.four_pending) eq_refl).
Defined.

End Fifo.

(** ** What a status update leaves alone *)

Section UpdateFrame.
Import Store.

Lemma update_one_pointwise job_id u c :
  Forall2 (λ j j', j' = j ∨ (_id j = job_id ∧ j' = apply_set u j))
    c (update_one job_id u c).1.
Proof.
  induction c as [|k c IH]; simpl; [constructor|].
  destruct (N.eqb_spec (_id k) job_id) as [Heq|Hne]; simpl.
  - constructor; [by right|].
    apply Forall_Forall2_diag, Forall_true. by left.
  - destruct (update_one job_id u c) as [c' n]. simpl in *.
    constructor; [by left | done].
Qed.

Lemma update_one_fixed_part job_id u c :
  fixed_part (update_one job_id u c).1 = fixed_part c.
Proof.
  unfold fixed_part. induction c as [|k c IH]; simpl; [done|].
  destruct (N.eqb (_id k) job_id); simpl; [done|].
  destruct (update_one job_id u c) as [c' n]. simpl in *. by f_equal.
Qed.

Lemma update_one_ids job_id u c : _id <$> (update_one job_id u c).1 = _id <$> c.
Proof.
  pose proof (update_one_fixed_part job_id u c) as H. unfold fixed_part in H.
  apply (f_equal (fmap (λ t : ObjectId * string * Time * Dict, t.1.1.1))) in H.
  by rewrite <- !list_fmap_compose in H.
Qed.

Lemma apply_set_nothing_cleared u j : nothing_cleared j (apply_set u j).
Proof.
  unfold nothing_cleared, apply_set, set_key. simpl.
  repeat split; intros [x Hx]; rewrite Hx;
    by destruct (u_completedAt u), (u_result u), (u_error u).
Qed.

Lemma api_update_collection job_id update_request now c :
  (Api.update_job job_id update_request now c).2 = c
  ∨ ∃ oid u, (Api.update_job job_id update_request now c).2
             = (update_one oid u c).1.
Proof.
  unfold Api.update_job.
  destruct (Api.validate_status _) as [st|]; [|by left].
  destruct (Api.get_job_by_id job_id c) as [j|code detail]; [|by left].
  destruct (Api.stored_object_id job_id) as [oid|]; [|by left].
  right. exists oid, (Api.update_doc_of st update_request now).
  by destruct (update_one oid _ c).
Qed.

(** X2: a status update, by the worker or through the update endpoint,
    rewrites at most the documents' status, dates, result and error: the
    ids, urls, creation times and options of the collection are the
    same afterwards, document by document, and no document is added or
    removed. *)
Theorem status_update_keeps_fixed_part env job_id st r e w
    job_id_str update_request now :
  fixed_part (Worker.jobs_collection
                (Worker._update_job_status env job_id st r e w).2)
  = fixed_part (Worker.jobs_collection w)
  ∧ fixed_part (Api.update_job job_id_str update_request now
                  (Worker.jobs_collection w)).2
    = fixed_part (Worker.jobs_collection w).
Proof.
  split.
  - rewrite update_job_status_eq. simpl. apply update_one_fixed_part.
  - destruct (api_update_collection job_id_str update_request now
                (Worker.jobs_collection w)) as [->|(oid & u & ->)]; [done|].
    apply update_one_fixed_part.
Qed.

(** X3: no status update sets a field back to null: a document that has
    a [completedAt], a [result] or an [error] still has one after any
    update by the worker or through the endpoint, so a finished job put
    back to pending or in_progress keeps its old result and dates. *)
Theorem status_update_clears_nothing env job_id st r e w
    job_id_str update_request now :
  Forall2 nothing_cleared (Worker.jobs_collection w)
    (Worker.jobs_collection (Worker._update_job_status env job_id st r e w).2)
  ∧ Forall2 nothing_cleared (Worker.jobs_collection w)
      (Api.update_job job_id_str update_request now
         (Worker.jobs_collection w)).2.
Proof.
  assert (∀ oid u c, Forall2 nothing_cleared c (update_one oid u c).1) as Hone.
  { intros oid u c. eapply Forall2_impl; [apply update_one_pointwise|].
    intros j j' [->|[_ ->]]; [|apply apply_set_nothing_cleared].
    by repeat split. }
  split.
  - rewrite update_job_status_eq. simpl. apply Hone.
  - destruct (api_update_collection job_id_str update_request now
                (Worker.jobs_collection w)) as [->|(oid & u & ->)];
      [|apply Hone].
    apply Forall_Forall2_diag, Forall_true. by repeat split.
Qed.

End UpdateFrame.

(** ** Ids and lookups *)

Section Ids.
Import Store Api.

Lemma find_one_None job_id c :
  find_one job_id c = None ↔ job_id ∉ _id <$> c.
Proof.
  induction c as [|k c IH]; simpl.
  - split; [intros _; apply not_elem_of_nil | done].
  - rewrite not_elem_of_cons.
    destruct (N.eqb_spec (_id k) job_id) as [Heq|Hne].
    + split; [done | by intros [? _]].
    + rewrite IH. split; [by intros ? | by intros [_ ?]].
Qed.

Lemma find_one_elem job_id c j :
  find_one job_id c = Some j → j ∈ c ∧ _id j = job_id.
Proof.
  induction c as [|k c IH]; simpl; [done|].
  destruct (N.eqb_spec (_id k) job_id) as [Heq|Hne].
  - intros [= ->]. split; [left | done].
  - intros Hj. destruct (IH Hj). split; [by right | done].
Qed.

Lemma hex_value_char d : (d < 16)%N → hex_value (hex_char d) = Some d.
Proof.
  intros Hd.
  assert (d = 0 ∨ d = 1 ∨ d = 2 ∨ d = 3 ∨ d = 4 ∨ d = 5 ∨ d = 6 ∨ d = 7
          ∨ d = 8 ∨ d = 9 ∨ d = 10 ∨ d = 11 ∨ d = 12 ∨ d = 13 ∨ d = 14
          ∨ d = 15)%N as Hcases by lia.
  repeat (destruct Hcases as [->|Hcases]; [reflexivity|]). by subst.
Qed.

Lemma parse_hex_digits k n rest acc :
  parse_hex (hex_digits k n rest) acc
  = parse_hex rest (acc * 16 ^ N.of_nat k + n mod 16 ^ N.of_nat k)%N.
Proof.
  revert n rest acc. induction k as [|k IH]; intros n rest acc.
  - simpl. by rewrite N.mod_1_r, N.mul_1_r, N.add_0_r.
  - cbn [hex_digits]. rewrite IH. cbn [parse_hex].
    rewrite hex_value_char by (apply N.mod_lt; lia).
    f_equal. rewrite Nat2N.inj_succ, N.pow_succ_r'.
    rewrite (N.Div0.mod_mul_r n 16 (16 ^ N.of_nat k)). lia.
Qed.

Lemma length_hex_digits k n rest :
  String.length (hex_digits k n rest) = (k + String.length rest)%nat.
Proof.
  revert n rest. induction k as [|k IH]; intros n rest; simpl; [done|].
  rewrite IH. simpl. lia.
Qed.

Lemma hex_not_space a d : hex_value a = Some d → is_space a = false.
Proof.
  unfold hex_value, is_space. generalize (Ascii.N_of_ascii a). intros n. simpl.
  destruct (N.leb_spec 48 n), (N.leb_spec n 57), (N.leb_spec 97 n),
    (N.leb_spec n 102), (N.leb_spec 65 n), (N.leb_spec n 70),
    (N.eqb_spec n 32), (N.leb_spec 9 n), (N.leb_spec n 13);
    simpl; intros ?; simplify_eq; lia.
Qed.

(** On hex digits alone, [fromhex] gives the bytes of the number they
    write. *)
Lemma fromhex_parse k s acc v :
  String.length s = (2 * k)%nat →
  parse_hex s acc = Some v →
  ∃ bytes, fromhex s = Some bytes
           ∧ length bytes = k
           ∧ foldl (λ a b, 256 * a + b)%N acc bytes = v.
Proof.
  revert s acc. induction k as [|k IH]; intros s acc Hlen.
  - destruct s; [|done]. intros [= <-]. by exists [].
  - destruct s as [|a [|b rest]]; [done | simpl in Hlen; lia |].
    cbn [parse_hex fromhex].
    destruct (hex_value a) as [top|] eqn:Ha; [|done].
    destruct (hex_value b) as [bot|] eqn:Hb; [|done].
    rewrite (hex_not_space _ _ Ha). intros Hrest.
    destruct (IH rest _ ltac:(simpl in Hlen; lia) Hrest)
      as (bytes & -> & Hk & Hv).
    exists ((16 * top + bot)%N :: bytes). split; [done|].
    split; [simpl; lia|]. simpl. rewrite <- Hv. f_equal. lia.
Qed.

(** The string of an id of twelve bytes is an ObjectId that stands
    for this id. *)
Lemma object_id_oid_str n :
  (n < 2 ^ 96)%N →
  ∃ oid, object_id (oid_str n) = Some oid ∧ stored_id oid = Some n.
Proof.
  intros Hn. unfold object_id, oid_str.
  rewrite length_hex_digits. simpl String.length. simpl Nat.eqb.
  destruct (fromhex_parse 12 (hex_digits 24 n "") 0%N n)
    as (bytes & -> & Hlen & Hv).
  - by rewrite length_hex_digits.
  - rewrite parse_hex_digits. simpl parse_hex.
    f_equal. rewrite N.mul_0_l, N.add_0_l. apply N.mod_small.
    by replace (16 ^ N.of_nat 24)%N with (2 ^ 96)%N by reflexivity.
  - exists bytes. split; [done|]. unfold stored_id. by rewrite Hlen, Hv.
Qed.

(** An ObjectId written with whitespace between its digits has fewer
    than twelve bytes and is the id of no job. *)
Lemma spaced_id_is_not_found c :
  get_job_by_id "00000000000000000000 01 " c
  = HTTPException 404 "Job not found".
Proof. reflexivity. Qed.

(** The status names are read back as the statuses they name, and
    no other string, in any other case or spelling, is accepted as a
    status. *)
Theorem validate_status_exact v st :
  validate_status v = Some st ↔ v = status_str st.
Proof.
  split.
  - unfold validate_status.
    destruct (String.eqb_spec v (status_str PENDING)) as [->|_];
      [by intros [= <-]|].
    destruct (String.eqb_spec v (status_str IN_PROGRESS)) as [->|_];
      [by intros [= <-]|].
    destruct (String.eqb_spec v (status_str COMPLETED)) as [->|_];
      [by intros [= <-]|].
    destruct (String.eqb_spec v (status_str FAILED)) as [->|_];
      [by intros [= <-]|].
    done.
  - intros ->. by destruct st.
Qed.

End Ids.

(** ** Creating, finding and deleting jobs *)

Section JobsApi.
Import Store Api.

Lemma insert_one_unique job c c' :
  insert_one job c = Return c' → unique_ids c → unique_ids c'.
Proof.
  unfold insert_one, unique_ids.
  destruct (find_one (_id job) c) eqn:Hfree; [done|].
  intros [= <-] Hc. rewrite fmap_app. simpl.
  apply NoDup_app. split; [done|]. split; [|apply NoDup_singleton].
  intros x Hx ->%list_elem_of_singleton. by apply find_one_None in Hfree.
Qed.

Lemma create_collection request_url request_options now inserted_id c :
  (create_scrape_job request_url request_options now inserted_id c).2 = c
  ∨ ∃ job, insert_one job c
           = Return (create_scrape_job request_url request_options now
                       inserted_id c).2.
Proof.
  unfold create_scrape_job.
  destruct (insert_one _ c) as [c'|e] eqn:Hins; [|by left].
  right. eexists. rewrite Hins. by destruct (find_one inserted_id c').
Qed.



Lemma delete_one_sublist job_id c : (delete_one job_id c).1 `sublist_of` c.
Proof.
  induction c as [|k c IH]; simpl; [done|].
  destruct (N.eqb (_id k) job_id); simpl; [by apply sublist_cons|].
  destruct (delete_one job_id c) as [c' n]. simpl in *. by apply sublist_skip.
Qed.

Lemma delete_collection job_id c :
  (delete_job job_id c).2 = c
  ∨ ∃ oid, (delete_job job_id c).2 = (delete_one oid c).1.
Proof.
  unfold delete_job.
  destruct (get_job_by_id job_id c) as [j|code detail]; [|by left].
  destruct (stored_object_id job_id) as [oid|]; [|by left].
  right. exists oid. destruct (delete_one oid c) as [c' n]. simpl.
  by destruct (n =? 0)%nat.
Qed.

(** X4: a job the submission endpoint created is found under the
    string of its id, by the lookup of the API, in the collection the
    creation left. *)
Theorem created_job_is_found request_url request_options now inserted_id c
    created c' :
  create_scrape_job request_url request_options now inserted_id c
  = (Ok created, c') →
  (inserted_id < 2 ^ 96)%N →
  get_job_by_id (oid_str (_id created)) c' = Ok created
  ∧ c' = c ++ [created]
  ∧ url created = request_url
  ∧ createdAt created = now.
Proof.
  intros Hcreate Hid. pose proof Hcreate as Hc.
  unfold create_scrape_job, insert_one in Hc. simpl in Hc.
  destruct (find_one inserted_id c) eqn:Hfree; [done|].
  rewrite (find_one_snoc _ _ _ Hfree) in Hc. simpl in Hc.
  rewrite N.eqb_refl in Hc. injection Hc as <- <-. simpl.
  destruct (object_id_oid_str inserted_id Hid) as (oid & Hoid & Hstored).
  unfold get_job_by_id, find_by_id. rewrite Hoid, Hstored. simpl.
  rewrite (find_one_snoc _ _ _ Hfree). simpl. by rewrite N.eqb_refl.
Qed.

Lemma created_job_is_found_witness :
  create_scrape_job Scenario.public_url None 10 Scenario.first_id []
  = (Ok Scenario.first_job, [Scenario.first_job])
  ∧ (Scenario.first_id < 2 ^ 96)%N
  ∧ get_job_by_id (oid_str (_id Scenario.first_job)) [Scenario.first_job]
    = Ok Scenario.first_job
  ∧ [Scenario.first_job] = [] ++ [Scenario.first_job]
  ∧ url Scenario.first_job = Scenario.public_url
  ∧ createdAt Scenario.first_job = 10.
Proof.
  split; [reflexivity|]. split; [reflexivity|].
  exact (created_job_is_found Scenario.public_url None 10 Scenario.first_id
           [] Scenario.first_job [Scenario.first_job] eq_refl eq_refl).
Defined.

(** X5: no operation brings two jobs under one id: when the ids of the
    collection are pairwise different they still are after a job was
    created, after a status update through the endpoint or by the
    worker, and after a job was deleted; a creation under an id that is
    taken is answered 500 and changes nothing. *)
Theorem ids_stay_unique env w request_url request_options now inserted_id
    job_id_str update_request job_id st r e :
  let c := Worker.jobs_collection w in
  unique_ids c →
  unique_ids (create_scrape_job request_url request_options now
                inserted_id c).2
  ∧ unique_ids (update_job job_id_str update_request now c).2
  ∧ unique_ids (delete_job job_id_str c).2
  ∧ unique_ids (Worker.jobs_collection
                  (Worker._update_job_status env job_id st r e w).2)
  ∧ match find_one inserted_id c with
    | Some _ =>
        create_scrape_job request_url request_options now inserted_id c
        = (HTTPException 500 "Failed to create scraping job", c)
    | None => True
    end.
Proof.
  intros c Hc. split; [|split; [|split; [|split]]].
  - destruct (create_collection request_url request_options now inserted_id c)
      as [->|[job Hins]]; [done|].
    by eapply insert_one_unique.
  - destruct (api_update_collection job_id_str update_request now c)
      as [->|(oid & u & ->)]; [done|].
    unfold unique_ids. by rewrite update_one_ids.
  - destruct (delete_collection job_id_str c) as [->|(oid & ->)]; [done|].
    unfold unique_ids. eapply sublist_NoDup; [exact Hc|].
    apply fmap_sublist, delete_one_sublist.
  - rewrite update_job_status_eq. simpl.
    unfold unique_ids. by rewrite update_one_ids.
  - destruct (find_one inserted_id c) as [j|] eqn:Hj; [|done].
    unfold create_scrape_job, insert_one. simpl. by rewrite Hj.
Qed.

Lemma ids_stay_unique_witness :
  let w := Scenario.fresh_worker Scenario.four_pending in
  let c := Worker.jobs_collection w in
  unique_ids c
  ∧ unique_ids (create_scrape_job Scenario.public_url None 20
                  Scenario.first_id c).2
  ∧ unique_ids (update_job Scenario.first_id_str Scenario.back_to_pending
                  20 c).2
  ∧ unique_ids (delete_job Scenario.first_id_str c).2
  ∧ unique_ids (Worker.jobs_collection
                  (Worker._update_job_status Scenario.steady
                     Scenario.first_id FAILED None None w).2)
  ∧ match find_one Scenario.first_id c with
    | Some _ =>
        create_scrape_job Scenario.public_url None 20 Scenario.first_id c
        = (HTTPException 500 "Failed to create scraping job", c)
    | None => True
    end.
Proof.
  assert (unique_ids (Worker.jobs_collection
                        (Scenario.fresh_worker Scenario.four_pending)))
    as Hc.
  { unfold unique_ids. simpl. repeat constructor; set_solver. }
  split; [exact Hc|].
  exact (ids_stay_unique Scenario.steady
           (Scenario.fresh_worker Scenario.four_pending)
           Scenario.public_url None 20 Scenario.first_id
           Scenario.first_id_str
           Scenario.back_to_pending Scenario.first_id FAILED None None Hc).
Defined.



End JobsApi.

(** ** Listing jobs and counting them *)

Section Listing.
Import Store Api.

Lemma status_str_inj a b : status_str a = status_str b → a = b.
Proof. by destruct a, b. Qed.

Lemma find_query_status st (c : list Job) :
  find_query (Some (status_str st)) c = find_status st c.
Proof.
  unfold find_query, find_status.
  replace (str_truthy (status_str st)) with true by (by destruct st).
  apply list_filter_iff. intros j. split; [apply status_str_inj | by intros ->].
Qed.

Lemma get_jobs_valid status_filter limit skip c :
  1 ≤ limit ≤ 1000 → 0 ≤ skip →
  get_jobs status_filter limit skip c
  = Ok (take (Z.to_nat limit)
          (drop (Z.to_nat skip)
             (sort_created_desc (find_query status_filter c)))).
Proof.
  intros Hl Hs. unfold get_jobs, to_list, Store.limit, Store.skip.
  destruct (Z.ltb_spec limit 1); [lia|].
  destruct (Z.ltb_spec 1000 limit); [lia|].
  destruct (Z.ltb_spec skip 0); [lia|]. simpl.
  destruct (Z.eqb_spec limit 0); [lia|].
  rewrite take_take. replace (Z.abs_nat limit) with (Z.to_nat limit) by lia.
  by rewrite Nat.min_id.
Qed.

(** X7: a page of [get_jobs] for a status holds jobs of the collection
    with that status, newest first; it skips the first [skip] of them
    and is as long as the limit unless the jobs run out. *)
Theorem get_jobs_page st limit skip c :
  1 ≤ limit ≤ 1000 → 0 ≤ skip →
  ∃ jobs,
    get_jobs (Some (status_str st)) limit skip c = Ok jobs
    ∧ StronglySorted newer jobs
    ∧ length jobs
      = (Z.to_nat limit `min` (count_status st c - Z.to_nat skip))%nat
    ∧ Forall (λ j, j ∈ c ∧ status j = st) jobs.
Proof.
  intros Hl Hs. rewrite get_jobs_valid by done. unfold Collection in *.
  rewrite find_query_status.
  set (L := sort_created_desc (find_status st c)).
  pose proof (sort_created_desc_sorted (find_status st c)) as Hsorted.
  pose proof (sort_created_desc_perm (find_status st c)) as Hperm.
  fold L in Hsorted, Hperm.
  eexists. split; [done|]. split; [|split].
  - rewrite <- (take_drop (Z.to_nat skip) L) in Hsorted.
    apply StronglySorted_app_1_r in Hsorted.
    rewrite <- (take_drop (Z.to_nat limit) (drop (Z.to_nat skip) L)) in Hsorted.
    by apply StronglySorted_app_1_l in Hsorted.
  - rewrite length_take, length_drop. unfold count_status.
    by rewrite <- Hperm.
  - apply Forall_forall. intros j Hj.
    apply elem_of_take in Hj as (i & Hi & _).
    rewrite lookup_drop in Hi. apply list_elem_of_lookup_2 in Hi.
    rewrite Hperm in Hi. unfold find_status in Hi.
    apply list_elem_of_filter in Hi. tauto.
Qed.

Lemma get_jobs_page_witness :
  1 ≤ 2 ≤ 1000 ∧ 0 ≤ 1
  ∧ ∃ jobs,
      get_jobs (Some (status_str PENDING)) 2 1 Scenario.four_pending = Ok jobs
      ∧ StronglySorted newer jobs
      ∧ length jobs
        = (Z.to_nat 2
           `min` (count_status PENDING Scenario.four_pending - Z.to_nat 1))%nat
      ∧ Forall (λ j, j ∈ Scenario.four_pending ∧ status j = PENDING) jobs.
Proof.
  split; [lia|]. split; [lia|].
  apply (get_jobs_page PENDING 2 1 Scenario.four_pending); lia.
Defined.

(** X8: consecutive pages of [get_jobs] join up.  On a collection
    whose creation times are pairwise different, so that the order of
    the sort is the only one there is, the page after the first [l1]
    jobs, put behind the page of those, is the page of [l1 + l2] jobs,
    whatever the filter. *)
Theorem get_jobs_pages_join status_filter l1 l2 skip (c : Collection) :
  NoDup (createdAt <$> c) →
  1 ≤ l1 → 1 ≤ l2 → l1 + l2 ≤ 1000 → 0 ≤ skip →
  ∃ p1 p2,
    get_jobs status_filter l1 skip c = Ok p1
    ∧ get_jobs status_filter l2 (skip + l1) c = Ok p2
    ∧ get_jobs status_filter (l1 + l2) skip c = Ok (p1 ++ p2).
Proof.
  intros _ H1 H2 H12 Hs. rewrite !get_jobs_valid by lia.
  do 2 eexists. split; [done|]. split; [done|]. f_equal.
  replace (Z.to_nat (skip + l1)) with (Z.to_nat skip + Z.to_nat l1)%nat by lia.
  replace (Z.to_nat (l1 + l2)) with (Z.to_nat l1 + Z.to_nat l2)%nat by lia.
  by rewrite <- drop_drop, take_take_drop.
Qed.

Lemma get_jobs_pages_join_witness :
  NoDup (createdAt <$> Scenario.four_pending)
  ∧ 1 ≤ 1 ∧ 1 ≤ 2 ∧ 1 + 2 ≤ 1000 ∧ 0 ≤ 1
  ∧ ∃ p1 p2,
      get_jobs None 1 1 Scenario.four_pending = Ok p1
      ∧ get_jobs None 2 (1 + 1) Scenario.four_pending = Ok p2
      ∧ get_jobs None (1 + 2) 1 Scenario.four_pending = Ok (p1 ++ p2).
Proof.
  assert (NoDup (createdAt <$> Scenario.four_pending)) as Hdistinct
    by (apply (bool_decide_unpack _); by vm_compute).
  split; [exact Hdistinct|].
  repeat (split; [lia|]).
  apply (get_jobs_pages_join None 1 2 1 Scenario.four_pending);
    [exact Hdistinct | lia..].
Defined.

(** X9: the status filter of [get_jobs] is not validated: an empty
    string filters nothing, and a string that is no status name is
    answered with an empty page, not with an error. *)
Theorem get_jobs_odd_filters v limit skip c :
  1 ≤ limit ≤ 1000 → 0 ≤ skip →
  validate_status v = None →
  get_jobs (Some "") limit skip c = get_jobs None limit skip c
  ∧ get_jobs (Some v) limit skip c
    = (if str_truthy v then Ok [] else get_jobs None limit skip c).
Proof.
  intros Hl Hs Hv. split; [done|].
  destruct (str_truthy v) eqn:Hne; [|by destruct v].
  rewrite get_jobs_valid by done. unfold find_query. rewrite Hne.
  unfold Collection in *.
  assert (filter (λ j, status_str (status j) = v) c = []) as ->.
  { induction c as [|k c IH]; [done|].
    rewrite filter_cons_False; [done|].
    intros <-. by rewrite validate_status_str in Hv. }
  simpl. by rewrite drop_nil, take_nil.
Qed.

Lemma get_jobs_odd_filters_witness :
  1 ≤ 10 ≤ 1000 ∧ 0 ≤ 0
  ∧ validate_status "Pending" = None
  ∧ get_jobs (Some "") 10 0 Scenario.four_pending
    = get_jobs None 10 0 Scenario.four_pending
  ∧ get_jobs (Some "Pending") 10 0 Scenario.four_pending
    = (if str_truthy "Pending" then Ok []
       else get_jobs None 10 0 Scenario.four_pending).
Proof.
  split; [lia|]. split; [lia|]. split; [reflexivity|].
  apply (get_jobs_odd_filters "Pending" 10 0 Scenario.four_pending);
    [lia | lia | reflexivity].
Defined.



End Listing.

(** ** The paths of one job *)

Section JobPaths.
Import Store Worker.

Lemma gotos_of_app a b : gotos_of (a ++ b) = gotos_of a ++ gotos_of b.
Proof. apply omap_app. Qed.

Lemma sleeps_of_app a b : sleeps_of (a ++ b) = sleeps_of a ++ sleeps_of b.
Proof. apply omap_app. Qed.

(** The robots check of a run, in terms of the checker. *)
Lemma robots_can_fetch_answer env job w :
  let w0 := after_status env (_id job) IN_PROGRESS None None w in
  ∃ c, robots_can_fetch env (url job) w0
       = (robots_answer env job w,
          set_robots_cache c (set_clock_reads (S (S (S (clock_reads w)))) w0)).
Proof.
  unfold robots_can_fetch, robots_answer, on_robots_cache, now, mbind, M_bind.
  simpl. destruct (Robots.can_fetch _ _ _ _ _ _) as [o c]. by exists c.
Qed.

(** X11: when the robots check of a job answers False, the worker
    neither navigates to the page nor sleeps the rate-limit delay; the
    job, if it is in the collection, ends failed with the error
    "Robots.txt disallows fetching this URL" and its result
    untouched. *)
Theorem robots_denial_skips_the_page env job w j0 :
  find_one (_id job) (jobs_collection w) = Some j0 →
  robots_answer env job w = Return false →
  let w' := (_process_single_job env job w).2 in
  gotos_of (log w') = gotos_of (log w)
  ∧ sleeps_of (log w') = sleeps_of (log w)
  ∧ visits w' = visits w
  ∧ ∃ j, find_one (_id job) (jobs_collection w') = Some j
         ∧ status j = FAILED
         ∧ error j = Some "Robots.txt disallows fetching this URL"
         ∧ result j = result j0.
Proof.
  intros Hj Hdeny. simpl.
  rewrite retry_transparent, body_eq. unfold attempt. open_m.
  rewrite update_job_status_eq.
  destruct (robots_can_fetch_answer env job w) as (c & ->). rewrite Hdeny.
  simpl.
  destruct (after_status_found env (_id job) IN_PROGRESS None None w j0 Hj)
    as [Hmid _].
  set (w1 := set_robots_cache c _).
  assert (find_one (_id job) (jobs_collection w1)
          = Some (apply_set (status_doc env IN_PROGRESS None None w) j0))
    as Hmid1 by exact Hmid.
  destruct (after_status_found env (_id job) FAILED None
              (Some "Robots.txt disallows fetching this URL") w1 _ Hmid1)
    as [Hend _].
  split; [|split; [|split; [done|]]].
  - rewrite !gotos_of_app. simpl. by rewrite !app_nil_r.
  - rewrite !sleeps_of_app. simpl. by rewrite !app_nil_r.
  - eexists. split; [exact Hend|]. done.
Qed.

Lemma robots_denial_skips_the_page_witness :
  let job := Scenario.private_job in
  let w := Scenario.fresh_worker [Scenario.first_job; job] in
  let w' := (_process_single_job Scenario.steady job w).2 in
  find_one (_id job) (jobs_collection w) = Some job
  ∧ robots_answer Scenario.steady job w = Return false
  ∧ gotos_of (log w') = gotos_of (log w)
  ∧ sleeps_of (log w') = sleeps_of (log w)
  ∧ visits w' = visits w
  ∧ ∃ j, find_one (_id job) (jobs_collection w') = Some j
         ∧ status j = FAILED
         ∧ error j = Some "Robots.txt disallows fetching this URL"
         ∧ result j = result job.
Proof.
  assert (robots_answer Scenario.steady Scenario.private_job
            (Scenario.fresh_worker [Scenario.first_job; Scenario.private_job])
          = Return false) as Hdeny by (by vm_compute).
  split; [reflexivity|]. split; [exact Hdeny|].
  exact (robots_denial_skips_the_page Scenario.steady Scenario.private_job
           (Scenario.fresh_worker [Scenario.first_job; Scenario.private_job])
           Scenario.private_job eq_refl Hdeny).
Defined.

(** X12: [_scrape_page] closes the page on every path: once
    [new_page] has returned, what it does ends with the one closing of
    the page, after at most one navigation; when [new_page] raises,
    nothing was opened and nothing is done. *)
Theorem page_is_closed env job_id url opts w :
  let v := visit env (visits w) url in
  let o := (_scrape_page env job_id url opts w).1 in
  let w' := (_scrape_page env job_id url opts w).2 in
  match new_page v with
  | Raise e => o = Raise e ∧ log w' = log w
  | Return _ =>
      ∃ before,
        log w' = log w ++ before ++ [EvPageClose]
        ∧ (before = [] ∨ ∃ timeout, before = [EvGoto url timeout])
  end.
Proof.
  unfold _scrape_page. open_m.
  set (v := visit env (visits w) url).
  destruct (new_page v) as [[]|e]; simpl; [|done].
  destruct (timeout_ms env opts) as [timeout|e]; simpl;
    [|exists []; split; [done | by left]].
  assert (∀ l : list Event,
            (l ++ [EvGoto url timeout]) ++ [EvPageClose]
            = l ++ [EvGoto url timeout] ++ [EvPageClose]) as Hassoc
    by (intros l; by rewrite <- app_assoc).
  destruct (goto v) as [[response|]|e]; simpl;
    [|exists [EvGoto url timeout]; split; [apply Hassoc | right; by eexists]..].
  destruct (r_status response >=? 400); simpl;
    [exists [EvGoto url timeout]; split; [apply Hassoc | right; by eexists]|].
  destruct (wait_for_load_state v) as [[]|e]; simpl;
    [|exists [EvGoto url timeout]; split; [apply Hassoc | right; by eexists]].
  destruct (content v) as [html|e]; simpl;
    [|exists [EvGoto url timeout]; split; [apply Hassoc | right; by eexists]].
  destruct (_ >? _); simpl;
    [exists [EvGoto url timeout]; split; [apply Hassoc | right; by eexists]|].
  destruct (dom_elements (extract_content v)) as [dom|e]; simpl;
    exists [EvGoto url timeout]; (split; [apply Hassoc | right; by eexists]).
Qed.

(** X13: a result of [_scrape_page] stands for a page that was loaded:
    the navigation answered with a status below 400, the content is
    within the size limit, and the result names the url asked for, that
    status, the length of the content and what the extractor made of
    it. *)
Theorem scrape_result_describes_the_page env job_id url opts w r :
  (_scrape_page env job_id url opts w).1 = Return r →
  let v := visit env (visits w) url in
  ∃ response html,
    goto v = Return (Some response)
    ∧ r_status response < 400
    ∧ content v = Return html
    ∧ Z.of_nat (String.length html) ≤ MAX_PAGE_SIZE (config env)
    ∧ dict_get "url" r = Some (PStr url)
    ∧ dict_get "status_code" r = Some (PInt (r_status response))
    ∧ dict_get "content_length" r
      = Some (PInt (Z.of_nat (String.length html)))
    ∧ dict_get "content" r = Some (PDict (extract_content v)).
Proof.
  unfold _scrape_page. open_m.
  set (v := visit env (visits w) url).
  destruct (new_page v) as [[]|e]; simpl; [|done].
  destruct (timeout_ms env opts) as [timeout|e]; simpl; [|done].
  destruct (goto v) as [[response|]|e]; simpl; [|done..].
  destruct (Z.geb_spec (r_status response) 400); simpl; [done|].
  destruct (wait_for_load_state v) as [[]|e]; simpl; [|done].
  destruct (content v) as [html|e]; simpl; [|done].
  destruct (Z.gtb_spec (Z.of_nat (String.length html))
              (MAX_PAGE_SIZE (config env))); simpl; [done|].
  destruct (dom_elements (extract_content v)) as [dom|e]; simpl; [|done].
  intros [= <-]. exists response, html. repeat split; try done; lia.
Qed.

Lemma scrape_result_describes_the_page_witness :
  let env := Scenario.steady in
  let w := Scenario.fresh_worker [Scenario.first_job] in
  let v := visit env (visits w) Scenario.public_url in
  ∃ r,
    (_scrape_page env Scenario.first_id Scenario.public_url [] w).1 = Return r
    ∧ ∃ response html,
        goto v = Return (Some response)
        ∧ r_status response < 400
        ∧ content v = Return html
        ∧ Z.of_nat (String.length html) ≤ MAX_PAGE_SIZE (config env)
        ∧ dict_get "url" r = Some (PStr Scenario.public_url)
        ∧ dict_get "status_code" r = Some (PInt (r_status response))
        ∧ dict_get "content_length" r
          = Some (PInt (Z.of_nat (String.length html)))
        ∧ dict_get "content" r = Some (PDict (extract_content v)).
Proof.
  destruct (_scrape_page Scenario.steady Scenario.first_id
              Scenario.public_url []
              (Scenario.fresh_worker [Scenario.first_job])).1
    as [r|e] eqn:Hrun.
  - exists r. split; [done|].
    exact (scrape_result_describes_the_page Scenario.steady Scenario.first_id
             Scenario.public_url []
             (Scenario.fresh_worker [Scenario.first_job]) r Hrun).
  - by vm_compute in Hrun.
Defined.

(** X14: a page that answers with a status of 400 or more fails its
    job with that status in the error: when the robots check allows the
    url and the navigation returns such a response, the job, if it is in
    the collection, ends failed with the error "HTTP <status>:
    <status text>" and its result untouched. *)
Theorem http_error_fails_the_job env job w j0 timeout response :
  let v := visit env (visits w) (url job) in
  find_one (_id job) (jobs_collection w) = Some j0 →
  robots_answer env job w = Return true →
  new_page v = Return tt →
  timeout_ms env (options job) = Return timeout →
  goto v = Return (Some response) →
  400 ≤ r_status response →
  let w' := (_process_single_job env job w).2 in
  ∃ j, find_one (_id job) (jobs_collection w') = Some j
       ∧ status j = FAILED
       ∧ error j = Some ("HTTP " +:+ pretty (r_status response) +:+ ": "
                         +:+ r_status_text response)
       ∧ result j = result j0.
Proof.
  intros v Hj Hallow Hnew Htimeout Hgoto Hstatus. simpl.
  assert ((attempt env job w).1
          = Raise (Exception ("HTTP " +:+ pretty (r_status response) +:+ ": "
                              +:+ r_status_text response))) as Hraise.
  { unfold attempt. open_m. rewrite update_job_status_eq.
    destruct (robots_can_fetch_answer env job w) as (c & ->). rewrite Hallow.
    simpl. unfold _scrape_page. open_m. fold v.
    rewrite Hnew, Htimeout. simpl. rewrite Hgoto. simpl.
    by destruct (Z.geb_spec (r_status response) 400) as [_|]; [|lia]. }
  destruct (processed_job env job w j0 Hj)
    as (o & w1 & Ha & _ & _ & _ & _ & Hend & _).
  rewrite Ha in Hraise. simpl in Hraise. subst o.
  eexists. split; [exact Hend|]. done.
Qed.

Lemma http_error_fails_the_job_witness :
  let env := Scenario.gone in
  let job := Scenario.first_job in
  let w := Scenario.fresh_worker [job] in
  let v := visit env (visits w) (url job) in
  let response := mkResponse 404 "Not Found" "text/html" in
  let w' := (_process_single_job env job w).2 in
  find_one (_id job) (jobs_collection w) = Some job
  ∧ robots_answer env job w = Return true
  ∧ new_page v = Return tt
  ∧ timeout_ms env (options job) = Return (PInt 30000)
  ∧ goto v = Return (Some response)
  ∧ 400 ≤ r_status response
  ∧ ∃ j, find_one (_id job) (jobs_collection w') = Some j
         ∧ status j = FAILED
         ∧ error j = Some ("HTTP " +:+ pretty (r_status response) +:+ ": "
                           +:+ r_status_text response)
         ∧ result j = result job.
Proof.
  assert (robots_answer Scenario.gone Scenario.first_job
            (Scenario.fresh_worker [Scenario.first_job]) = Return true)
    as Hallow by (by vm_compute).
  split; [reflexivity|]. split; [exact Hallow|]. split; [reflexivity|].
  split; [reflexivity|]. split; [reflexivity|]. split; [simpl; lia|].
  refine (http_error_fails_the_job Scenario.gone Scenario.first_job
            (Scenario.fresh_worker [Scenario.first_job]) Scenario.first_job
            (PInt 30000) (mkResponse 404 "Not Found" "text/html")
            eq_refl Hallow eq_refl eq_refl eq_refl _).
  simpl. lia.
Defined.

End JobPaths.

(** ** Counters and the set of current jobs *)

Section Tasks.
Import Store Worker.

(** The counters follow the outcome of a job: one more processed, and
    one more succeeded or failed. *)
Lemma after_status_counters env job_id status result error w :
  let w' := after_status env job_id status result error w in
  current_jobs w' = current_jobs w
  ∧ jobs_processed w' = jobs_processed w
  ∧ jobs_succeeded w' = jobs_succeeded w
  ∧ jobs_failed w' = jobs_failed w.
Proof. done. Qed.

(** What a turn of a running task does to the counters and to
    [current_jobs]: nothing before its last stretch; in its last
    stretch it takes its id out, counts one more processed and one more
    succeeded or failed. *)
Lemma task_step_effect env job pc w :
  is_finished pc = false →
  let pc' := (task_step env job pc w).1 in
  let w' := (task_step env job pc w).2 in
  if is_finished pc'
  then current_jobs w' = current_jobs w ∖ {[_id job]}
       ∧ jobs_processed w' = S (jobs_processed w)
       ∧ (jobs_succeeded w' + jobs_failed w'
          = S (jobs_succeeded w + jobs_failed w))%nat
  else current_jobs w' = current_jobs w
       ∧ jobs_processed w' = jobs_processed w
       ∧ jobs_succeeded w' = jobs_succeeded w
       ∧ jobs_failed w' = jobs_failed w.
Proof.
  intros Hpc.
  destruct pc; [..|done]; unfold task_step, in_try, to_end, finally_clause;
    open_m; rewrite ?update_job_status_eq; simpl; try done.
  - destruct (robots_can_fetch_quiet env (url job) w)
      as (b & w' & -> & (_ & Hcj & _ & Hp & Hs & Hf & _) & _).
    by destruct b; simpl.
  - destruct (scrape_page_quiet env (_id job) (url job) (options job) w)
      as (o & w' & -> & (_ & Hcj & _ & Hp & Hs & Hf & _) & _).
    by destruct o; simpl.
Qed.

(** The [for] loop creates tasks for distinct ids, none of which was in
    [current_jobs]. *)
Lemma create_tasks_fresh jobs w :
  ∃ tasks,
    create_tasks jobs w
    = (Return tasks,
       set_current_jobs (λ s, s ∪ list_to_set (_id <$> tasks)) w)
    ∧ NoDup (_id <$> tasks)
    ∧ ∀ job_id, job_id ∈ _id <$> tasks → job_id ∉ current_jobs w.
Proof.
  revert w. induction jobs as [|job rest IH]; intros w; simpl.
  - exists []. open_m. split; [|split; [constructor|]].
    + f_equal. destruct w; unfold set_current_jobs; simpl. f_equal.
      set_solver.
    + intros job_id Hin. by apply elem_of_nil in Hin.
  - open_m. destruct (decide (_id job ∈ current_jobs w)) as [Hin|Hout].
    + destruct (IH w) as (tasks & -> & Hnd & Hfresh).
      exists tasks. done.
    + destruct (IH (set_current_jobs (λ s, s ∪ {[_id job]}) w))
        as (tasks & -> & Hnd & Hfresh).
      exists (job :: tasks). simpl in *. split; [|split].
      * f_equal. destruct w; unfold set_current_jobs; simpl. f_equal.
        set_solver.
      * constructor; [|done].
        intros Hin. apply Hfresh in Hin. set_solver.
      * intros job_id. rewrite elem_of_cons.
        intros [->|Hin]; [done|]. apply Hfresh in Hin. set_solver.
Qed.

(** A poll leaves the counters as they are and adds to [current_jobs]
    the ids of the tasks it creates, which are distinct and new. *)
Lemma dispatch_effect env w :
  ∃ tasks w',
    process_jobs_dispatch env w = (Return tasks, w')
    ∧ NoDup (_id <$> tasks)
    ∧ (∀ job_id, job_id ∈ _id <$> tasks → job_id ∉ current_jobs w)
    ∧ current_jobs w' = current_jobs w ∪ list_to_set (_id <$> tasks)
    ∧ jobs_processed w' = jobs_processed w
    ∧ jobs_succeeded w' = jobs_succeeded w
    ∧ jobs_failed w' = jobs_failed w.
Proof.
  unfold process_jobs_dispatch, db_find_pending.
  unfold mbind, M_bind, mret, M_ret, get. cbv beta iota zeta.
  destruct (Z.geb _ _).
  - exists [], w. split; [done|]. split; [constructor|].
    split; [by intros ? ?%elem_of_nil|]. simpl.
    by rewrite union_empty_r_L.
  - destruct (to_list _ _) as [|job rest].
    + eexists [], _. split; [done|]. split; [constructor|].
      split; [by intros ? ?%elem_of_nil|]. simpl.
      by rewrite union_empty_r_L.
    + destruct (create_tasks_fresh (job :: rest)
                  (emit (EvFind (MAX_CONCURRENT_JOBS (config env)
                                 - Z.of_nat (size (current_jobs w)))) w))
        as (tasks & -> & Hnd & Hfresh).
      eexists tasks, _. split; [done|]. done.
Qed.

Lemma finished_tasks_app a b :
  finished_tasks (a ++ b) = (finished_tasks a + finished_tasks b)%nat.
Proof. unfold finished_tasks. by rewrite filter_app, length_app. Qed.

Lemma running_ids_app a b :
  running_ids (a ++ b) = running_ids a ++ running_ids b.
Proof. unfold running_ids. by rewrite filter_app, fmap_app. Qed.

(** Tasks just created are all running. *)
Lemma created_tasks_running (tasks : list Job) :
  finished_tasks (map (λ job, (job, AtStart)) tasks) = 0%nat
  ∧ running_ids (map (λ job, (job, AtStart)) tasks) = _id <$> tasks.
Proof.
  unfold finished_tasks, running_ids.
  induction tasks as [|job rest [IH1 IH2]]; [done|].
  cbn [map]. rewrite !filter_cons. cbn [snd is_finished].
  rewrite decide_False by done. rewrite decide_True by done.
  rewrite fmap_cons. cbn [fst]. by rewrite IH1, IH2.
Qed.

(** A turn of task [i] replaces its entry in the pool. *)
Lemma pool_turn (tasks : list (Job * TaskPc)) i job pc pc' :
  tasks !! i = Some (job, pc) →
  ∃ before after,
    tasks = before ++ (job, pc) :: after
    ∧ <[i := (job, pc')]> tasks = before ++ (job, pc') :: after.
Proof.
  intros Hi. exists (take i tasks), (drop (S i) tasks).
  split; [by rewrite take_drop_middle|].
  apply insert_take_drop. by eapply lookup_lt_Some.
Qed.

(** Main loop and tasks together keep the count of processed jobs at
    the number of finished tasks. *)
Lemma loop_step_counters env c l l' :
  loop_step env c l = Some l' →
  (jobs_processed (world l') + finished_tasks (pool l)
   = jobs_processed (world l) + finished_tasks (pool l'))%nat
  ∧ (jobs_succeeded (world l') + jobs_failed (world l')
     + finished_tasks (pool l)
     = jobs_succeeded (world l) + jobs_failed (world l)
       + finished_tasks (pool l'))%nat.
Proof.
  destruct c as [|i]; simpl.
  - unfold main_step.
    destruct (main l) as [|first|].
    + destruct (is_running (world l)); [|done].
      destruct (dispatch_effect env (world l))
        as (tasks & w' & -> & _ & _ & _ & Hp & Hs & Hf).
      destruct tasks as [|t ts]; intros [= <-]; simpl;
        rewrite Hp, Hs, Hf; [done|].
      rewrite finished_tasks_app.
      destruct (created_tasks_running (t :: ts)) as [Hnone _].
      simpl in Hnone. rewrite Hnone. lia.
    + destruct (forallb _ _); [|done]. by intros [= <-].
    + by intros [= <-].
  - unfold task_turn.
    destruct (pool l !! i) as [[job pc]|] eqn:Hi; [|done].
    destruct (is_finished pc) eqn:Hpc; [done|].
    pose proof (task_step_effect env job pc (world l) Hpc) as Hstep.
    destruct (task_step env job pc (world l)) as [pc' w'].
    intros [= <-]. simpl in *.
    destruct (pool_turn _ _ _ _ pc' Hi) as (before & after & Hpool & ->).
    rewrite Hpool, !finished_tasks_app. unfold finished_tasks.
    rewrite !filter_cons. simpl. rewrite Hpc.
    destruct (is_finished pc'); simpl.
    + destruct Hstep as (_ & Hp & Hsf). lia.
    + destruct Hstep as (_ & -> & -> & ->). lia.
Qed.

(** Main loop and tasks together keep [current_jobs] at the ids of the
    running tasks, which are distinct. *)
Lemma loop_step_running env c l l' :
  loop_step env c l = Some l' →
  NoDup (running_ids (pool l))
  ∧ current_jobs (world l) = list_to_set (running_ids (pool l)) →
  NoDup (running_ids (pool l'))
  ∧ current_jobs (world l') = list_to_set (running_ids (pool l')).
Proof.
  destruct c as [|i]; simpl.
  - unfold main_step.
    destruct (main l) as [|first|].
    + destruct (is_running (world l)); [|done].
      destruct (dispatch_effect env (world l))
        as (tasks & w' & -> & Hnd & Hfresh & Hcj & _).
      destruct tasks as [|t ts]; intros [= <-] [Hl Hw]; simpl.
      * split; [done|]. rewrite Hcj, Hw. simpl. by rewrite union_empty_r_L.
      * rewrite running_ids_app.
        destruct (created_tasks_running (t :: ts)) as [_ Hids].
        simpl in Hids. rewrite Hids. split.
        -- apply NoDup_app. split; [done|]. split; [|done].
           intros job_id Hin Hnew. apply (Hfresh job_id Hnew).
           rewrite Hw. by apply elem_of_list_to_set.
        -- by rewrite Hcj, Hw, list_to_set_app_L.
    + destruct (forallb _ _); [|done]. by intros [= <-].
    + by intros [= <-].
  - unfold task_turn.
    destruct (pool l !! i) as [[job pc]|] eqn:Hi; [|done].
    destruct (is_finished pc) eqn:Hpc; [done|].
    pose proof (task_step_effect env job pc (world l) Hpc) as Hstep.
    destruct (task_step env job pc (world l)) as [pc' w'].
    intros [= <-]. simpl in *.
    destruct (pool_turn _ _ _ _ pc' Hi) as (before & after & Hpool & ->).
    rewrite Hpool, !running_ids_app. unfold running_ids.
    rewrite !filter_cons. simpl. rewrite Hpc. simpl.
    intros [Hnd Hw].
    destruct (is_finished pc'); simpl.
    + destruct Hstep as (-> & _). rewrite Hw.
      apply NoDup_app in Hnd as (Hb & Hba & Ha).
      apply NoDup_cons in Ha as (Hja & Ha).
      split.
      * apply NoDup_app. split; [done|]. split; [|done].
        intros x Hx Hxa. apply (Hba x Hx). by right.
      * assert (_id job ∉ (λ t : Job * TaskPc, _id t.1)
                  <$> filter (λ t, is_finished t.2 = false) before) as Hjb.
        { intros Hin. apply (Hba _ Hin). by left. }
        rewrite !list_to_set_app_L, list_to_set_cons.
        apply set_eq. intros x.
        rewrite elem_of_difference, !elem_of_union, elem_of_singleton,
          !elem_of_list_to_set.
        split.
        -- intros [[H|[H|H]] Hne]; [by left|done|by right].
        -- intros [H|H]; (split; [tauto|]); intros ->; done.
    + by destruct Hstep as (-> & _).
Qed.

(** X15: the worker's counters follow the outcome of each job.  After
    [_process_single_job], whatever the job and the state, one more job
    is counted as processed, and either the last status sent was
    completed and one more job is counted as succeeded, or it was failed
    and one more is counted as failed. *)
Theorem counters_follow_outcome env job w :
  let w' := (_process_single_job env job w).2 in
  jobs_processed w' = S (jobs_processed w)
  ∧ ((updates_of (log w')
      = updates_of (log w) ++ [(_id job, IN_PROGRESS); (_id job, COMPLETED)]
      ∧ jobs_succeeded w' = S (jobs_succeeded w)
      ∧ jobs_failed w' = jobs_failed w)
     ∨ (updates_of (log w')
        = updates_of (log w) ++ [(_id job, IN_PROGRESS); (_id job, FAILED)]
        ∧ jobs_succeeded w' = jobs_succeeded w
        ∧ jobs_failed w' = S (jobs_failed w))).
Proof.
  simpl. rewrite retry_transparent, body_eq.
  destruct (attempt_quiet env job w) as (o & w1 & -> & Hq & _).
  destruct Hq as (_ & _ & _ & Hp & Hs & Hf & _ & events & Hlog & Hev).
  assert (updates_of (log w1)
          = updates_of (log w) ++ [(_id job, IN_PROGRESS)]) as Hup.
  { rewrite Hlog. unfold updates_of in *. rewrite omap_app, Hev, app_nil_r.
    unfold after_status. simpl. by rewrite omap_app. }
  simpl in Hp, Hs, Hf.
  destruct o as [r|e]; simpl; rewrite Hp, Hs, Hf; (split; [done|]);
    [left|right]; (split; [|done]);
    unfold updates_of in *; rewrite omap_app, Hup; simpl;
    by rewrite <- app_assoc.
Qed.

(** X16: on the event loop, [jobs_processed] counts the tasks that ran
    to their end.  In every state the worker reaches, the processed
    jobs are those counted at the start plus one per finished task of
    the pool, and succeeded and failed together went up by the same
    number: a task that is still running is counted nowhere. *)
Theorem processed_counts_finished_tasks env w l :
  reachable env w l →
  jobs_processed (world l)
  = (jobs_processed w + finished_tasks (pool l))%nat
  ∧ (jobs_succeeded (world l) + jobs_failed (world l)
     = jobs_succeeded w + jobs_failed w + finished_tasks (pool l))%nat.
Proof.
  intros [schedule Hrun].
  eapply (run_invariant env
            (λ l, jobs_processed (world l)
                  = (jobs_processed w + finished_tasks (pool l))%nat
                  ∧ (jobs_succeeded (world l) + jobs_failed (world l)
                     = jobs_succeeded w + jobs_failed w
                       + finished_tasks (pool l))%nat));
    [|exact Hrun|].
  - intros c l1 l2 Hstep [Hp Hsf].
    destruct (loop_step_counters env c l1 l2 Hstep) as [Hp' Hsf']. lia.
  - simpl. unfold finished_tasks. simpl. lia.
Qed.

Lemma processed_counts_finished_tasks_witness :
  let env := Scenario.steady in
  let w := Scenario.fresh_worker Scenario.four_pending in
  ∃ l,
    run env Scenario.first_task_done (start w) = Some l
    ∧ finished_tasks (pool l) = 1%nat
    ∧ jobs_processed (world l)
      = (jobs_processed w + finished_tasks (pool l))%nat
    ∧ (jobs_succeeded (world l) + jobs_failed (world l)
       = jobs_succeeded w + jobs_failed w + finished_tasks (pool l))%nat.
Proof.
  destruct (run Scenario.steady Scenario.first_task_done
              (start (Scenario.fresh_worker Scenario.four_pending)))
    as [l|] eqn:Hrun.
  - exists l. split; [done|]. split.
    + vm_compute in Hrun. by injection Hrun as <-.
    + apply (processed_counts_finished_tasks Scenario.steady
               (Scenario.fresh_worker Scenario.four_pending)).
      by exists Scenario.first_task_done.
  - by vm_compute in Hrun.
Defined.

(** X17: no job is handled by two running tasks of a worker, and
    [current_jobs] is exactly the set of jobs with a running task.  In
    every state reached from a worker whose [current_jobs] is empty, the
    ids of the unfinished tasks are pairwise distinct and [current_jobs]
    holds these ids and no other. *)
Theorem current_jobs_are_the_running_tasks env w l :
  reachable env w l →
  current_jobs w = ∅ →
  NoDup (running_ids (pool l))
  ∧ current_jobs (world l) = list_to_set (running_ids (pool l)).
Proof.
  intros [schedule Hrun] Hw.
  eapply (run_invariant env
            (λ l, NoDup (running_ids (pool l))
                  ∧ current_jobs (world l)
                    = list_to_set (running_ids (pool l))));
    [|exact Hrun|].
  - intros c l1 l2. apply loop_step_running.
  - simpl. split; [constructor|done].
Qed.

Lemma current_jobs_are_the_running_tasks_witness :
  let env := Scenario.steady in
  let w := Scenario.fresh_worker Scenario.four_pending in
  current_jobs w = ∅
  ∧ ∃ l,
      run env Scenario.first_task_done (start w) = Some l
      ∧ NoDup (running_ids (pool l))
      ∧ current_jobs (world l) = list_to_set (running_ids (pool l)).
Proof.
  split; [reflexivity|].
  destruct (run Scenario.steady Scenario.first_task_done
              (start (Scenario.fresh_worker Scenario.four_pending)))
    as [l|] eqn:Hrun.
  - exists l. split; [done|].
    apply (current_jobs_are_the_running_tasks Scenario.steady
             (Scenario.fresh_worker Scenario.four_pending));
      [by exists Scenario.first_task_done | reflexivity].
  - by vm_compute in Hrun.
Defined.

End Tasks.

(** ** The cache of the robots checker *)

Section RobotsCache.
Import Robots.

(** X18: the robots checker caches nothing but a decision of the
    parser.  A call leaves the cache as it was, unless the key had no
    fresh entry, robots.txt was fetched with status 200 and the parser
    answered: then the answer is the parser's and it is stored under the
    key of the robots file and the agent with the time of storing.  The
    default answers, given when the url does not parse, robots.txt is
    missing or anything fails, are never cached. *)
Theorem can_fetch_caches_only_parser_decisions
    env url user_agent t_check t_store cache :
  let answer := (can_fetch env url user_agent t_check t_store cache).1 in
  let cache' := (can_fetch env url user_agent t_check t_store cache).2 in
  cache' = cache
  ∨ ∃ parsed rp b,
      let cache_key := cache_key_of (robots_url_of parsed) user_agent in
      urlparse env url = Return parsed
      ∧ cached_decision cache cache_key t_check = None
      ∧ http_get env (robots_url_of parsed) = Return 200
      ∧ rp_read env (robots_url_of parsed) = Return rp
      ∧ rp_can_fetch env rp user_agent url = Return b
      ∧ answer = Return b
      ∧ cache' = <[cache_key := (b, t_store)]> cache.
Proof.
  unfold can_fetch, try_except, mbind, M_bind, mret, M_ret, lift, get, modify.
  destruct (urlparse env url) as [parsed|e] eqn:Hp; simpl; [|by left].
  destruct (cached_decision cache _ t_check) eqn:Hc; [by left|].
  destruct (http_get env (robots_url_of parsed)) as [st|e] eqn:Hg; simpl;
    [|by left].
  destruct (Z.eqb_spec st 200) as [->|_]; [|by left].
  destruct (rp_read env (robots_url_of parsed)) as [rp|e] eqn:Hr; simpl;
    [|by left].
  destruct (rp_can_fetch env rp user_agent url) as [b|e] eqn:Hb; simpl;
    [|by left].
  right. by exists parsed, rp, b.
Qed.

(** X19: a stored decision answers every later call for the same
    robots file and agent until it is an hour old.  After a call that
    stored the parser's decision at [t_store], a call less than 3600
    seconds later for any url of the same site, with the same agent,
    returns that decision and leaves the cache alone, whatever the site
    serves by then. *)
Theorem stored_decision_is_reused
    env env' url url' user_agent t_check t_store t_check' t_store' cache
    parsed parsed' rp b :
  urlparse env url = Return parsed →
  cached_decision cache (cache_key_of (robots_url_of parsed) user_agent)
    t_check = None →
  http_get env (robots_url_of parsed) = Return 200 →
  rp_read env (robots_url_of parsed) = Return rp →
  rp_can_fetch env rp user_agent url = Return b →
  urlparse env' url' = Return parsed' →
  robots_url_of parsed' = robots_url_of parsed →
  t_check' - t_store < cache_ttl →
  let cache1 := (can_fetch env url user_agent t_check t_store cache).2 in
  can_fetch env' url' user_agent t_check' t_store' cache1
  = (Return b, cache1).
Proof.
  intros Hp Hc Hg Hr Hb Hp' Hsame Ht. simpl.
  rewrite (can_fetch_miss _ _ _ _ _ _ _ _ _ Hp Hc Hg Hr Hb). simpl.
  apply (can_fetch_hit _ _ _ _ _ _ parsed' b t_store); [done| |done].
  rewrite Hsame. apply lookup_insert_eq.
Qed.

Lemma stored_decision_is_reused_witness :
  let env := Scenario.site in
  let parsed := ("https", "example.com") in
  let cache1 := (can_fetch env Scenario.public_url "*" 0 0 ∅).2 in
  urlparse env Scenario.public_url = Return parsed
  ∧ cached_decision ∅ (cache_key_of (robots_url_of parsed) "*") 0 = None
  ∧ http_get env (robots_url_of parsed) = Return 200
  ∧ rp_read env (robots_url_of parsed) = Return tt
  ∧ rp_can_fetch env tt "*" Scenario.public_url = Return true
  ∧ urlparse env Scenario.private_url = Return parsed
  ∧ 3599 - 0 < cache_ttl
  ∧ can_fetch env Scenario.private_url "*" 3599 3599 cache1
    = (Return true, cache1).
Proof.
  split; [reflexivity|]. split; [reflexivity|]. split; [reflexivity|].
  split; [reflexivity|]. split; [reflexivity|]. split; [reflexivity|].
  split; [reflexivity|].
  exact (stored_decision_is_reused Scenario.site Scenario.site
           Scenario.public_url Scenario.private_url "*" 0 0 3599 3599 ∅
           ("https", "example.com") ("https", "example.com") tt true
           eq_refl eq_refl eq_refl eq_refl eq_refl eq_refl eq_refl eq_refl).
Defined.

(** X20: an entry that is an hour old or older is not used.  The
    checker then answers as it would without the entry: it fetches
    robots.txt again and asks the parser, or falls back to allowing. *)
Theorem expired_entry_is_ignored
    env url user_agent t_check t_store cache parsed b ts :
  let cache_key := cache_key_of (robots_url_of parsed) user_agent in
  urlparse env url = Return parsed →
  cache !! cache_key = Some (b, ts) →
  cache_ttl ≤ t_check - ts →
  (can_fetch env url user_agent t_check t_store cache).1
  = (can_fetch env url user_agent t_check t_store (delete cache_key cache)).1.
Proof.
  intros cache_key Hp Hc Ht.
  unfold can_fetch, try_except, mbind, M_bind, mret, M_ret, lift, get, modify.
  rewrite Hp; simpl. fold cache_key. unfold cached_decision.
  rewrite Hc, lookup_delete_eq.
  destruct (Z.ltb_spec (t_check - ts) cache_ttl) as [|_]; [lia|].
  destruct (http_get env (robots_url_of parsed)) as [st|e]; simpl; [|done].
  destruct (Z.eqb st 200); [|done].
  destruct (rp_read env (robots_url_of parsed)) as [rp|e]; simpl; [|done].
  by destruct (rp_can_fetch env rp user_agent url) as [d|e].
Qed.

Lemma expired_entry_is_ignored_witness :
  let env := Scenario.site in
  let parsed := ("https", "example.com") in
  let cache_key := cache_key_of (robots_url_of parsed) "*" in
  let cache : Cache := {[cache_key := (true, 0)]} in
  urlparse env Scenario.private_url = Return parsed
  ∧ cache !! cache_key = Some (true, 0)
  ∧ cache_ttl ≤ 3600 - 0
  ∧ (can_fetch env Scenario.private_url "*" 3600 3600 cache).1
    = (can_fetch env Scenario.private_url "*" 3600 3600
         (delete cache_key cache)).1.
Proof.
  assert (cache_ttl ≤ 3600 - 0) as Ht by (unfold cache_ttl; lia).
  split; [reflexivity|]. split; [by vm_compute|]. split; [exact Ht|].
  exact (expired_entry_is_ignored Scenario.site Scenario.private_url "*"
           3600 3600
           {[cache_key_of (robots_url_of ("https", "example.com")) "*"
             := (true, 0)]}
           ("https", "example.com") true 0 eq_refl
           (lookup_singleton_eq _ _) Ht).
Defined.

End RobotsCache.

(** ** The content extractor *)

Section Extraction.
Import Worker Extractor.

(** X21: one failing extractor does not spoil the others, and a failure
    of the extraction as a whole is returned, not raised.
    [extract_content] yields either the single entry [error], from which
    the worker reads 0 dom elements, or the ten extractor names, then
    [analysis] and [statistics], in this order; in that case each name
    holds what its extractor returned on the parsed page, or None where
    that extractor raised. *)
Theorem extract_content_isolates_failures env html base_url :
  let results := extract_content env html base_url in
  (∃ message, results = [("error", PStr message)]
              ∧ dom_elements results = Return (PInt 0))
  ∨ ∃ s analysis statistics,
      parse env html = Return s
      ∧ results.*1 = extractors ++ ["analysis"; "statistics"]
      ∧ (∀ name, name ∈ extractors →
           dict_get name results
           = Some match extractor env name s base_url with
                  | Return v => v
                  | Raise _ => PNone
                  end)
      ∧ dict_get "analysis" results = Some analysis
      ∧ dict_get "statistics" results = Some statistics
      ∧ analyze_content env s = Return analysis
      ∧ calculate_statistics env s html = Return statistics.
Proof.
  unfold extract_content.
  destruct (parse env html) as [s|e]; [|left; by eexists].
  destruct (analyze_content env s) as [analysis|e] eqn:Ha;
    [|left; by eexists].
  destruct (calculate_statistics env s html) as [statistics|e] eqn:Hs;
    [|left; by eexists].
  right. exists s, analysis, statistics.
  split; [done|]. split; [reflexivity|].
  split; [|split; [reflexivity|split; [reflexivity|done]]].
  intros name Hin. unfold extractors in Hin.
  repeat (apply elem_of_cons in Hin as [->|Hin]; [reflexivity|]).
  by apply elem_of_nil in Hin.
Qed.

End Extraction.
